(** * The versioning core of the DVID datastore

    A shallow embedding of package [datastore]:
    - [datastore/dataset.go]: [Datasets] (the registry), [Dataset],
      [VersionDAG], [Node], [NodeVersion] and their operations;
    - [datastore/versioning.go]: the older, flat [VersionDAG] with
      [VersionIdFromString] (module [Versioning] below).

    Conventions of the embedding.
    - A Go [map] is a [gmap]; reading a nil map behaves like reading an
      empty one.  A map that the code tests against nil, or writes without
      a preceding successful read, is an [option (gmap _ _)].
    - [range] over a map visits the entries in an order Go leaves
      unspecified: a loop whose result depends on the order takes the
      visiting order as an argument, and theorems quantify over every
      permutation of the map's entries.
    - An [error] is its message; the nil error is [None].
    - [NewUUID()] and [time.Now()] are the two sources of non-determinism
      in the package; the value each call returns is an argument.
    - Mutexes are not modelled: every operation runs to completion on
      its own, which is what the locks of the package are there to
      ensure.
    - [*Dataset] pointers are shared between [Datasets.Datasets] and
      [Datasets.versionMap]: Dataset objects live in a [Store] and a
      pointer is an address in it.  Dereferencing an address that holds no
      object is Go's nil-pointer panic, modelled by [None]. *)

From Stdlib Require Import ZArith Lia.
From stdpp Require Import base option list gmap strings fin_maps.

Local Open Scope string_scope.
Local Open Scope list_scope.
Local Open Scope Z_scope.

(** ** Fixed-width integers *)

(** A Go integer type: its width and signedness. *)
Record IntType := mkIntType { int_bits : positive; int_signed : bool }.

Definition int16 : IntType := mkIntType 16 true.
Definition uint16 : IntType := mkIntType 16 false.
Definition uint32 : IntType := mkIntType 32 false.

Definition int_min (T : IntType) : Z :=
  if int_signed T then - 2 ^ (Z.pos (int_bits T) - 1) else 0.

Definition int_max (T : IntType) : Z :=
  if int_signed T then 2 ^ (Z.pos (int_bits T) - 1) - 1
  else 2 ^ Z.pos (int_bits T) - 1.

(** Arithmetic on a fixed-width integer wraps around silently. *)
Definition wrap (T : IntType) (z : Z) : Z :=
  if int_signed T
  then (z + 2 ^ (Z.pos (int_bits T) - 1)) mod 2 ^ Z.pos (int_bits T)
       - 2 ^ (Z.pos (int_bits T) - 1)
  else z mod 2 ^ Z.pos (int_bits T).

(** [x++] *)
Definition incr (T : IntType) (x : Z) : Z := wrap T (x + 1).

(** ** Identifiers, time, errors *)

(** [type UUID string] *)
Definition UUID := string.
(** [type DataString string] *)
Definition DataString := string.
(** [time.Time], an instant. *)
Definition Time := Z.
(** [[]byte] *)
Definition bytes := list Byte.byte.

(** [error]: the message of the error value. *)
Definition error := string.

(** [strings.HasPrefix(s, prefix)] *)
Definition HasPrefix (s pre : string) : bool := String.prefix pre s.

(** The messages built by [fmt.Errorf] in the package, one definition per
    format string.  In the vocabulary of the design: [errNoNodeFound],
    [errNoPartialMatch] and [errIllegalUUID] are NotFound errors,
    [errUnlockedParent] is NotLocked, [errMoreThanOneMatch] is Ambiguous,
    [errDataExists] is AlreadyExists, [errNoDataType] is UnknownType and
    [errDeserializing] is the serialization error. *)
Definition errNoNodeFound (u : UUID) : error :=
  "No node found with UUID " +:+ u.
Definition errUnlockedParent (parent : UUID) : error :=
  "Cannot create a child of an unlocked node " +:+ parent.
Definition errMoreThanOneMatch (str : string) : error :=
  "More than one UUID matches " +:+ str +:+ "!".
Definition errNoPartialMatch (str : string) : error :=
  "Could not find UUID with partial match to " +:+ str +:+ "!".
Definition errIllegalUUID (u : UUID) : error :=
  "DatasetFromUUID(): Illegal UUID (" +:+ u +:+ ") not found".
Definition errDataExists (name : DataString) (root : UUID) : error :=
  "Data named '" +:+ name +:+ "' already exists in dataset " +:+ root.
Definition errNoDataType (typeName : string) (cause : error) : error :=
  "No data type '" +:+ typeName +:+ "' found [" +:+ cause +:+ "]".
Definition errDeserializing (cause : error) : error :=
  "Error in deserializing datasets: " +:+ cause.

(** ** versioning.go *)

Module Versioning.

(** [type VersionId int16] *)
Abbreviation VersionId := Z.

Record VersionNode := mkVersionNode {
  Id : UUID;
  Index : VersionId;
  Locked : bool;
  Parents : list UUID;
  Children : list UUID;
  Note : string;
  Provenance : string;
  Created : Time;
  Updated : Time
}.

Record VersionDAG := mkVersionDAG {
  Head : UUID;
  Nodes : list VersionNode;
  VersionMap : gmap UUID VersionId
}.

(** [NewVersionDAG]; [head] is the UUID minted by [NewUUID()] and [t]
    the instant read from [time.Now()]. *)
Definition NewVersionDAG (head : UUID) (t : Time) : VersionDAG :=
  let node := mkVersionNode head 0 false [] [] "" "" t t in
  mkVersionDAG head ([] ++ [node]) {[ head := 0 ]}.

(** The body of the [range] loop of [VersionIdFromString]: the state is
    [(numMatches, lastMatch)]. *)
Definition match_step (str : string)
    (acc : Z * VersionId) (entry : UUID * VersionId) : Z * VersionId :=
  if HasPrefix entry.1 str then (acc.1 + 1, entry.2) else acc.

(** [VersionIdFromString] when the loop visits the entries of
    [dag.VersionMap] in the order [visit].  The results are the named
    return values [(id, err)]. *)
Definition VersionIdFromString_visiting (visit : list (UUID * VersionId))
    (str : string) : VersionId * option error :=
  let '(numMatches, lastMatch) := foldl (match_step str) (0, 0) visit in
  if 1 <? numMatches then (0, Some (errMoreThanOneMatch str))
  else if numMatches =? 0 then (0, Some (errNoPartialMatch str))
  else (lastMatch, None).

(** One admissible run: the entries in the order [map_to_list] lists
    them. *)
Definition VersionIdFromString (dag : VersionDAG) (str : string)
    : VersionId * option error :=
  VersionIdFromString_visiting (map_to_list (VersionMap dag)) str.

End Versioning.

(** ** dataset.go: the version DAG *)

(** [type DataAvail int] *)
Inductive DataAvail := DataComplete | DataDelta | DataRoot | DataDeleted.

Record NodeVersion := mkNodeVersion {
  GlobalID : UUID;
  VersionID : Z;
  Locked : bool;
  Parents : list UUID;
  Children : list UUID;
  Created : Time;
  Updated : Time
}.

Record NodeText := mkNodeText {
  Note : string;
  Provenance : string
}.

(** [Node] embeds [*NodeVersion] and [*NodeText].  Every node the package
    creates has a [NodeVersion] and a nil [NodeText]. *)
Record Node := mkNode {
  Node_version : NodeVersion;
  Node_text : option NodeText;
  Avail : gmap DataString DataAvail
}.

Record VersionDAG := mkVersionDAG {
  Root : UUID;
  Nodes : gmap UUID Node;
  VersionMap : gmap UUID Z;
  NewVersionID : Z;
  NewDataID : Z
}.

(** [&Node{NodeVersion: version}] *)
Definition Node_of (version : NodeVersion) : Node := mkNode version None ∅.

(** [NewVersionDAG]; [root] is the UUID minted by [NewUUID()], [t] the
    instant read from [time.Now()]. *)
Definition NewVersionDAG (root : UUID) (t : Time) : VersionDAG :=
  let version := mkNodeVersion root 0 false [] [] t t in
  mkVersionDAG root (<[root := Node_of version]> ∅) (<[root := 0]> ∅) 1 0.

(** [node.Locked = true] through the node pointer. *)
Definition lock_node (node : Node) : Node :=
  let v := Node_version node in
  mkNode (mkNodeVersion (GlobalID v) (VersionID v) true (Parents v)
            (Children v) (Created v) (Updated v))
         (Node_text node) (Avail node).

(** [Lock] *)
Definition Lock (dag : VersionDAG) (u : UUID) : VersionDAG * option error :=
  match Nodes dag !! u with
  | None => (dag, Some (errNoNodeFound u))
  | Some node =>
      (mkVersionDAG (Root dag) (<[u := lock_node node]> (Nodes dag))
         (VersionMap dag) (NewVersionID dag) (NewDataID dag), None)
  end.

(** [node.Children = append(node.Children, u); node.Updated = t] through
    the node pointer. *)
Definition add_child (node : Node) (u : UUID) (t : Time) : Node :=
  let v := Node_version node in
  mkNode (mkNodeVersion (GlobalID v) (VersionID v) (Locked v) (Parents v)
            (Children v ++ [u]) (Created v) t)
         (Node_text node) (Avail node).

Section VersionDAG_ops.

(** [dvid.LocalID] is declared in package [dvid]; only that it is a
    fixed-width integer type matters here. *)
Variable LocalID : IntType.

(** [VersionDAG.newChild]; [fresh] is the UUID [NewUUID()] returns and
    [t] the instant [time.Now()] returns when the call gets that far.
    The results are the new state of the DAG and the named return
    values [(u, err)]. *)
Definition VersionDAG_newChild (fresh : UUID) (t : Time)
    (dag : VersionDAG) (parent : UUID)
    : VersionDAG * (UUID * option error) :=
  match Nodes dag !! parent with
  | None => (dag, ("", Some (errNoNodeFound parent)))
  | Some node =>
      if negb (Locked (Node_version node))
      then (dag, ("", Some (errUnlockedParent parent)))
      else
        let u := fresh in
        let nodes1 := <[parent := add_child node u t]> (Nodes dag) in
        let version :=
          mkNodeVersion u (NewVersionID dag) false [u] [] t t in
        let nodes2 := <[u := Node_of version]> nodes1 in
        (mkVersionDAG (Root dag) nodes2 (VersionMap dag)
           (incr LocalID (NewVersionID dag)) (NewDataID dag),
         (u, None))
  end.

End VersionDAG_ops.

(** [Versions]: the keys of [dag.Nodes], here in the order [map_to_list]
    lists them (Go leaves the order unspecified). *)
Definition Versions (dag : VersionDAG) : list UUID :=
  (map_to_list (Nodes dag)).*1.

(** ** dataset.go: datasets and the registry *)

(** Modelled from the spec: [DataID] is declared outside [dataset.go]; the
    type constructor receives the data name, "a freshly allocated data id"
    and "the dataset id", which [NewData] passes as the positional literal
    [DataID{name, dset.NewDataID, dset.DatasetID}]. *)
Record DataID := mkDataID {
  DataID_Name : DataString;
  DataID_ID : Z;
  DataID_DsetID : Z
}.

(** What the codec sees of a [Dataset]: its exported fields. *)
Record DatasetWire := mkDatasetWire {
  wire_VersionDAG : VersionDAG;
  wire_Alias : string;
  wire_DatasetID : Z
}.

(** What the codec sees of [Datasets]: the exported fields, with the
    [*Dataset] pointers followed.  [versionMap] and [writeLock] are
    unexported. *)
Record DatasetsWire := mkDatasetsWire {
  wire_Datasets : list DatasetWire;
  wire_NewDatasetID : Z
}.

(** [*Dataset]: the address of a Dataset object. *)
Definition ptr := nat.

Record Datasets := mkDatasets {
  Datasets_list : list ptr;
  NewDatasetID : Z;
  versionMap : option (gmap UUID ptr)
}.

(** [dsets.versionMap[u]] as a read. *)
Definition versionMap_lookup (dsets : Datasets) (u : UUID) : option ptr :=
  versionMap dsets ≫= λ vm, vm !! u.

(** [dset.NewDataID = id]: the field is promoted from the embedded DAG. *)
Definition set_NewDataID (dag : VersionDAG) (id : Z) : VersionDAG :=
  mkVersionDAG (Root dag) (Nodes dag) (VersionMap dag) (NewVersionID dag) id.

Section Registry.

(** The collaborators of the package, declared outside [src/]:
    the integer types [dvid.LocalID] and [dvid.LocalID32], the constant
    [dvid.KeyDataStart], the types [dvid.Config] and [DataService], the
    type registry lookup [TypeServiceByName], and the codec
    [dvid.Serialize] / [dvid.Deserialize]. *)
Variables LocalID LocalID32 : IntType.
Variable KeyDataStart : Z.
Variable Config : Type.
Variable DataService : Type.

(** A [TypeService], seen through its method [NewDataService]. *)
Definition TypeService : Type := DataID → Config → DataService + error.

Variable TypeServiceByName : string → TypeService + error.

(** [dvid.Serialize(dsets, dvid.Snappy, dvid.CRC32)] *)
Variable dvid_Serialize : DatasetsWire → bytes * option error.
(** [dvid.Deserialize(s, dsets)] decodes into the object it is given:
    it receives the exported fields as they are and returns them as it
    leaves them, with its error. *)
Variable dvid_Deserialize :
  bytes → DatasetsWire → DatasetsWire * option error.

Record Dataset := mkDataset {
  Dataset_dag : VersionDAG;
  Alias : string;
  DatasetID : Z;
  nameMap : option (gmap DataString DataService)
}.

(** The Dataset objects allocated so far; a [ptr] is an index. *)
Definition Store := list Dataset.

(** [dset.nameMap[name]] as a read. *)
Definition nameMap_lookup (dset : Dataset) (name : DataString)
    : option DataService :=
  nameMap dset ≫= λ m, m !! name.

(** The Dataset with its DAG as [VersionDAG.newChild] left it. *)
Definition with_dag (dset : Dataset) (dag : VersionDAG) : Dataset :=
  mkDataset dag (Alias dset) (DatasetID dset) (nameMap dset).

(** [Dataset.NewData] *)
Definition NewData (dset : Dataset) (name : DataString)
    (typeName : string) (config : Config) : Dataset * option error :=
  match nameMap_lookup dset name with
  | Some _ => (dset, Some (errDataExists name (Root (Dataset_dag dset))))
  | None =>
      match TypeServiceByName typeName with
      | inr err => (dset, Some (errNoDataType typeName err))
      | inl typeService =>
          let dataID :=
            mkDataID name (NewDataID (Dataset_dag dset)) (DatasetID dset) in
          match typeService dataID config with
          | inr err => (dset, Some err)
          | inl dataservice =>
              let m := default ∅ (nameMap dset) in
              (mkDataset (Dataset_dag dset) (Alias dset) (DatasetID dset)
                 (Some (<[name := dataservice]> m)), None)
          end
      end
  end.

(** [Datasets.newDataset]; [root] and [t] are what [NewUUID()] and
    [time.Now()] return inside [NewVersionDAG].  Writing to a nil
    [versionMap] panics. *)
Definition newDataset (root : UUID) (t : Time) (st : Store * Datasets)
    : option ((Store * Datasets) * ptr) :=
  let '(mem, dsets) := st in
  let dset :=
    mkDataset (set_NewDataID (NewVersionDAG root t) KeyDataStart)
      "" (NewDatasetID dsets) None in
  let p : ptr := length mem in
  vm ← versionMap dsets;
  Some ((mem ++ [dset],
         mkDatasets (Datasets_list dsets ++ [p])
           (incr LocalID32 (NewDatasetID dsets))
           (Some (<[root := p]> vm))), p).

(** [Datasets.newChild].  The DAG is reached through the [*Dataset]
    found in [versionMap] and is updated in place, whatever
    [VersionDAG.newChild] returns. *)
Definition Datasets_newChild (fresh : UUID) (t : Time)
    (st : Store * Datasets) (parent : UUID)
    : option ((Store * Datasets) * (UUID * option error)) :=
  let '(mem, dsets) := st in
  match versionMap_lookup dsets parent with
  | None => Some (st, ("", Some (errNoNodeFound parent)))
  | Some p =>
      dset ← mem !! p;
      let '(dag, (u, err)) :=
        VersionDAG_newChild LocalID fresh t (Dataset_dag dset) parent in
      let mem := <[p := with_dag dset dag]> mem in
      match err with
      | Some _ => Some ((mem, dsets), (u, err))
      | None =>
          Some ((mem,
                 mkDatasets (Datasets_list dsets) (NewDatasetID dsets)
                   (Some (<[u := p]> (default ∅ (versionMap dsets))))),
                (u, None))
      end
  end.

(** [Datasets.newData] *)
Definition Datasets_newData (st : Store * Datasets) (u : UUID)
    (name : DataString) (typeName : string) (config : Config)
    : option ((Store * Datasets) * option error) :=
  let '(mem, dsets) := st in
  match versionMap_lookup dsets u with
  | None => Some (st, Some (errNoNodeFound u))
  | Some p =>
      dset ← mem !! p;
      let '(dset, err) := NewData dset name typeName config in
      Some ((<[p := dset]> mem, dsets), err)
  end.

(** [Datasets.DatasetFromUUID] *)
Definition DatasetFromUUID (dsets : Datasets) (u : UUID)
    : option ptr * option error :=
  match versionMap_lookup dsets u with
  | Some p => (Some p, None)
  | None => (None, Some (errIllegalUUID u))
  end.

(** The body of the [range] loop of [DatasetFromString]: the state is
    [(numMatches, dataset, u)]. *)
Definition match_step (str : string)
    (acc : Z * option ptr * UUID) (entry : UUID * ptr)
    : Z * option ptr * UUID :=
  if HasPrefix entry.1 str then (acc.1.1 + 1, Some entry.2, entry.1)
  else acc.

(** [Datasets.DatasetFromString] when the loop visits the entries of
    [dsets.versionMap] in the order [visit].  The results are the named
    return values [(dataset, u, err)]; a nil [dataset] is [None]. *)
Definition DatasetFromString_visiting (visit : list (UUID * ptr))
    (str : string) : option ptr * UUID * option error :=
  let '(numMatches, dataset, u) :=
    foldl (match_step str) (0, None, "") visit in
  if 1 <? numMatches then (dataset, u, Some (errMoreThanOneMatch str))
  else if numMatches =? 0 then (dataset, u, Some (errNoPartialMatch str))
  else (dataset, u, None).

(** The entries of [dsets.versionMap]; none for a nil map. *)
Definition versionMap_entries (dsets : Datasets) : list (UUID * ptr) :=
  map_to_list (default ∅ (versionMap dsets)).

(** One admissible run: the entries in the order [map_to_list] lists
    them. *)
Definition DatasetFromString (dsets : Datasets) (str : string)
    : option ptr * UUID * option error :=
  DatasetFromString_visiting (versionMap_entries dsets) str.

(** *** Persistence *)

(** The exported fields of a Dataset, and the Dataset decoded from them:
    the unexported [nameMap] is not transmitted and is nil after
    decoding. *)
Definition Dataset_export (dset : Dataset) : DatasetWire :=
  mkDatasetWire (Dataset_dag dset) (Alias dset) (DatasetID dset).
Definition Dataset_import (w : DatasetWire) : Dataset :=
  mkDataset (wire_VersionDAG w) (wire_Alias w) (wire_DatasetID w) None.

(** The exported fields of the registry, following each pointer. *)
Definition Datasets_export (mem : Store) (dsets : Datasets)
    : option DatasetsWire :=
  ds ← mapM (λ p : ptr, mem !! p) (Datasets_list dsets);
  Some (mkDatasetsWire (Dataset_export <$> ds) (NewDatasetID dsets)).

(** [Datasets.Serialize] *)
Definition Serialize (st : Store * Datasets)
    : option (bytes * option error) :=
  w ← Datasets_export st.1 st.2;
  Some (dvid_Serialize w).

(** Decoding allocates a new Dataset object for each element. *)
Definition alloc_all (mem : Store) (ds : list Dataset)
    : Store * list ptr :=
  (mem ++ ds, seq (length mem) (length ds)).

(** [for _, u := range dset.Versions() { dsets.versionMap[u] = dset }] *)
Definition index_versions (vm : gmap UUID ptr) (p : ptr) (dset : Dataset)
    : gmap UUID ptr :=
  foldl (λ vm u, <[u := p]> vm) vm (Versions (Dataset_dag dset)).

(** The loop over [dsets.Datasets] that fills the index [vm]. *)
Definition rebuild_from (mem : Store) (vm : gmap UUID ptr) (ps : list ptr)
    : gmap UUID ptr :=
  foldl (λ vm p,
           match mem !! p with
           | Some dset => index_versions vm p dset
           | None => vm
           end) vm ps.

(** [dsets.versionMap = make(map[UUID]*Dataset)], then the loop. *)
Definition rebuild_versionMap (mem : Store) (ps : list ptr)
    : gmap UUID ptr :=
  rebuild_from mem ∅ ps.

(** [Datasets.Deserialize] *)
Definition Deserialize (st : Store * Datasets) (s : bytes)
    : (Store * Datasets) * option error :=
  let '(mem, dsets) := st in
  let target := mkDatasetsWire [] (NewDatasetID dsets) in
  let '(decoded, err) := dvid_Deserialize s target in
  let '(mem, ps) :=
    alloc_all mem (Dataset_import <$> wire_Datasets decoded) in
  match err with
  | Some e =>
      ((mem, mkDatasets ps (wire_NewDatasetID decoded) (versionMap dsets)),
       Some (errDeserializing e))
  | None =>
      ((mem, mkDatasets ps (wire_NewDatasetID decoded)
               (Some (rebuild_versionMap mem ps))), None)
  end.

(** [Datasets.Get]; [got] is what [db.Get(&KeyDatasets)] returns. *)
Definition Get (st : Store * Datasets) (got : bytes * option error)
    : (Store * Datasets) * option error :=
  let '(data, err) := got in
  match err with
  | Some e => (st, Some e)
  | None => Deserialize st data
  end.

End Registry.

Arguments mkDataset {DataService}.
Arguments Dataset_dag {DataService}.
Arguments Alias {DataService}.
Arguments DatasetID {DataService}.
Arguments nameMap {DataService}.
Arguments nameMap_lookup {DataService}.
Arguments with_dag {DataService}.
Arguments NewData {Config DataService}.
Arguments newDataset LocalID32 KeyDataStart {DataService}.
Arguments Datasets_newChild LocalID {DataService}.
Arguments Datasets_newData {Config DataService}.
Arguments Dataset_export {DataService}.
Arguments Dataset_import {DataService}.
Arguments Datasets_export {DataService}.
Arguments Serialize {DataService}.
Arguments alloc_all {DataService}.
Arguments index_versions {DataService}.
Arguments rebuild_from {DataService}.
Arguments rebuild_versionMap {DataService}.
Arguments Deserialize {DataService}.
Arguments Get {DataService}.

(** ** Histories of a version DAG *)

(** The operations that change a DAG after [NewVersionDAG]. *)
Inductive DagOp :=
| OpLock (u : UUID)
| OpNewChild (parent fresh : UUID) (t : Time).

(** The local id recorded in the node of [u]. *)
Definition node_VersionID (dag : VersionDAG) (u : UUID) : option Z :=
  VersionID ∘ Node_version <$> Nodes dag !! u.

(** One operation; a call that returns an error is skipped by the caller.
    The second component is the local id given to the child when
    [newChild] succeeds. *)
Definition apply_op (LocalID : IntType) (dag : VersionDAG) (op : DagOp)
    : VersionDAG * option Z :=
  match op with
  | OpLock u => ((Lock dag u).1, None)
  | OpNewChild parent fresh t =>
      let '(dag', (u, err)) := VersionDAG_newChild LocalID fresh t dag parent in
      match err with
      | Some _ => (dag', None)
      | None => (dag', node_VersionID dag' u)
      end
  end.

(** A sequence of operations; the local ids given to the children, in
    creation order. *)
Fixpoint run_ops (LocalID : IntType) (dag : VersionDAG) (ops : list DagOp)
    : VersionDAG * list Z :=
  match ops with
  | [] => (dag, [])
  | op :: ops =>
      let '(dag', id) := apply_op LocalID dag op in
      let '(dag'', ids) := run_ops LocalID dag' ops in
      (dag'', option_list id ++ ids)
  end.

(** A 32-character lowercase hexadecimal rendering, as [NewUUID] formats
    its sixteen bytes with [%032x]. *)
Definition hex_digit (n : N) : Ascii.ascii :=
  Ascii.ascii_of_N (if (n <? 10)%N then 48 + n else 87 + n)%N.

Fixpoint hex_of (width : nat) (n : N) (acc : string) : string :=
  match width with
  | O => acc
  | S w => hex_of w (n / 16)%N (String (hex_digit (n mod 16)%N) acc)
  end.

Definition uuid_of (n : N) : UUID := hex_of 32 n "".

(** The UUID minted for the [k]-th child of a test history:
    [1000...0000 + k] in hexadecimal.  Its first digit is 1, that of the
    root [uuid_of 0] is 0. *)
Definition child_uuid (k : N) : UUID := uuid_of (2 ^ 124 + k).

(** [n] calls of [newChild] on [root], minting the UUIDs [child_uuid k],
    [child_uuid (k + 1)], ... *)
Fixpoint branch_ops (root : UUID) (k : N) (n : nat) : list DagOp :=
  match n with
  | O => []
  | S n =>
      OpNewChild root (child_uuid k) (Z.of_N k) :: branch_ops root (N.succ k) n
  end.

(** Lock the root, then branch [n] times from it, with the UUIDs
    [child_uuid 1], ..., [child_uuid n]. *)
Definition branch_from_root (root : UUID) (n : nat) : list DagOp :=
  OpLock root :: branch_ops root 1 n.

(** ** Concrete histories used as test inputs *)

(** A new DAG whose root has been locked. *)
Definition locked_root_dag : VersionDAG :=
  (Lock (NewVersionDAG (uuid_of 0) 0) (uuid_of 0)).1.

(** [locked_root_dag] after one successful [newChild] on its root. *)
Definition one_child_dag : VersionDAG :=
  (VersionDAG_newChild uint16 (uuid_of 1) 1 locked_root_dag (uuid_of 0)).1.


(** ** Concrete registries used as test inputs *)

(** A type registry with one type, ["recorder"]: its data services are
    the [DataID] they were constructed with, its [Config] is empty. *)
Definition recorder : TypeService unit DataID := λ id _, inl id.

Definition recorder_types (typeName : string)
    : TypeService unit DataID + error :=
  if String.eqb typeName "recorder" then inl recorder
  else inr ("unknown type " +:+ typeName).

(** A registry with no Dataset and an allocated [versionMap]. *)
Definition empty_registry : Store DataID * Datasets :=
  ([], mkDatasets [] 0 (Some ∅)).

(** The state a call leaves, for calls that return normally. *)
Definition state_after {A : Type}
    (r : option ((Store DataID * Datasets) * A)) : Store DataID * Datasets :=
  default empty_registry (fst <$> r).

(** One Dataset, with [KeyDataStart = 1]; its root is unlocked. *)
Definition fresh_registry : Store DataID * Datasets :=
  state_after (newDataset uint32 1 (uuid_of 0) 0 empty_registry).

(** The root of the Dataset of [fresh_registry]. *)
Definition fresh_root_node : Node :=
  Node_of (mkNodeVersion (uuid_of 0) 0 false [] [] 0 0).

(** The Dataset object of [fresh_registry]. *)
Definition fresh_dataset : Dataset DataID :=
  mkDataset (set_NewDataID (NewVersionDAG (uuid_of 0) 0) 1) "" 0 None.

(** The DAG after locking a new root and branching three times from it,
    with a signed 16-bit [dvid.LocalID]. *)
Definition three_children_dag : VersionDAG :=
  (run_ops int16 (NewVersionDAG (uuid_of 0) 0)
     (branch_from_root (uuid_of 0) 3)).1.

(** The history that locks a new root and branches [n] times from it,
    for a given [dvid.LocalID]: the final DAG and the local ids handed
    out. *)
Definition branch_run (LocalID : IntType) (n : Z) : VersionDAG * list Z :=
  run_ops LocalID (NewVersionDAG (uuid_of 0) 0)
    (branch_from_root (uuid_of 0) (Z.to_nat n)).

(** [fresh_dataset] after [NewData] for ["grayscale"], and after a second
    [NewData] for ["labels"]. *)
Definition one_data_dataset : Dataset DataID :=
  (NewData recorder_types fresh_dataset "grayscale" "recorder" ()).1.

Definition two_data_dataset : Dataset DataID :=
  (NewData recorder_types one_data_dataset "labels" "recorder" ()).1.

(** ** Prefix matching *)

(** The entries of a map whose key starts with [str], in the order the
    loop visits them. *)
Definition matching {A : Type} (str : string) (visit : list (UUID * A))
    : list (UUID * A) :=
  filter (λ e, HasPrefix e.1 str = true) visit.

(** ** Concrete indices used as test inputs for prefix resolution *)

(** A flat DAG index with three UUIDs, two of which share a prefix. *)
Definition three_uuid_dag : Versioning.VersionDAG :=
  Versioning.mkVersionDAG "3fa22" []
    (<["3fa22" := 0]> (<["7cd11" := 1]> (<["3fa77" := 2]> ∅))).

(** A registry index over the same UUIDs: the first and the third belong
    to the Dataset at address 0, the second to the one at address 1. *)
Definition three_uuid_index : Datasets :=
  mkDatasets [0%nat; 1%nat] 2
    (Some (<["3fa22" := 0%nat]> (<["7cd11" := 1%nat]>
             (<["3fa77" := 0%nat]> ∅)))).

(** ** Concrete codec and registry used as test inputs for persistence *)

(** [dset.Lock(u)] on the Dataset object at address [p]: [Lock] is
    promoted from the embedded DAG. *)
Definition lock_in_store (st : Store DataID * Datasets) (p : ptr) (u : UUID)
    : Store DataID * Datasets :=
  match st.1 !! p with
  | Some dset =>
      (<[p := with_dag dset (Lock (Dataset_dag dset) u).1]> st.1, st.2)
  | None => st
  end.

(** One Dataset whose root is locked and has one child. *)
Definition branched_registry : Store DataID * Datasets :=
  state_after
    (Datasets_newChild uint16 (uuid_of 1) 1
       (lock_in_store fresh_registry 0%nat (uuid_of 0)) (uuid_of 0)).

(** The exported fields of [branched_registry]. *)
Definition branched_wire : DatasetsWire :=
  default (mkDatasetsWire [] 0)
    (Datasets_export branched_registry.1 branched_registry.2).

(** A codec that knows one message: it encodes every registry as the
    byte [01] and decodes that byte to [branched_wire]; on any other
    input it fails closed, leaving the object it decodes into as it
    was. *)
Definition codebook_Serialize (w : DatasetsWire) : bytes * option error :=
  ([Byte.x01], None).

Definition codebook_Deserialize (s : bytes) (target : DatasetsWire)
    : DatasetsWire * option error :=
  match s with
  | [Byte.x01] => (branched_wire, None)
  | _ => (target, Some "checksum mismatch")
  end.


(** * Further operations of the package *)

(** ** Shape of a version DAG *)

(** What holds of every node of a DAG built by [NewVersionDAG], [Lock]
    and [newChild]: it is stored under its own [GlobalID], it has no
    child while it is unlocked, and its children are nodes of the
    DAG. *)
Definition node_shape (dag : VersionDAG) (u : UUID) (node : Node) : Prop :=
  GlobalID (Node_version node) = u ∧
  (Locked (Node_version node) = false → Children (Node_version node) = []) ∧
  (∀ c, c ∈ Children (Node_version node) → is_Some (Nodes dag !! c)).

Definition DAG_shape (dag : VersionDAG) : Prop :=
  is_Some (Nodes dag !! Root dag) ∧
  ∀ u node, Nodes dag !! u = Some node → node_shape dag u node.

(** The UUID an operation mints, if it is a [newChild]. *)
Definition minted (op : DagOp) : option UUID :=
  match op with
  | OpLock _ => None
  | OpNewChild _ fresh _ => Some fresh
  end.

(** ** Minting identifiers *)

(** One byte under [%x]: two lowercase hexadecimal digits. *)
Definition hex_byte (b : Byte.byte) : string :=
  String (hex_digit (Byte.to_N b / 16)%N)
    (String (hex_digit (Byte.to_N b mod 16)%N) "").

(** [fmt.Sprintf("%032x", []byte(u))] for the sixteen bytes [NewUUID]
    passes: two digits per byte, 32 characters, so that the width never
    pads. *)
Definition hex_bytes (bs : bytes) : string :=
  foldr (λ b s, hex_byte b +:+ s) "" bs.

(** [NewUUID]; [u] is what [uuid.NewUUID()] returns, a byte slice or
    nil. *)
Definition NewUUID (u : option bytes) : UUID :=
  match u with
  | None => ""
  | Some bs => if Nat.eqb (length bs) 16 then hex_bytes bs else ""
  end.

(** The characters [0-9a-f]. *)
Definition is_lower_hex (c : Ascii.ascii) : bool :=
  let n := Ascii.N_of_ascii c in
  ((48 <=? n)%N && (n <=? 57)%N) || ((97 <=? n)%N && (n <=? 102)%N).

Fixpoint all_chars (p : Ascii.ascii → bool) (s : string) : bool :=
  match s with
  | EmptyString => true
  | String c s => p c && all_chars p s
  end.

(** ** Looking data up *)

Definition errCannotFindData (name : DataString) : error :=
  "Cannot find data '" +:+ name +:+ "'".
Definition errNoNodeWithUUID (u : UUID) : error :=
  "No node with UUID " +:+ u +:+ " found".
Definition errNoDataNamed (name : DataString) (u : UUID) : error :=
  "No data named '" +:+ name +:+ "' at node with UUID " +:+ u.

Section Registry_lookups.

Variable LocalID : IntType.
Variable LocalID32 : IntType.
Variable KeyDataStart : Z.
Variable Config : Type.
Variable DataService : Type.
Variable TypeServiceByName : string → TypeService Config DataService + error.

(** [Dataset.AvailableData] *)
Definition AvailableData (dset : Dataset DataService)
    : option (gmap DataString DataService) :=
  nameMap dset.

(** [Dataset.DataService]; the results are the named return values
    [(dataservice, err)], a nil [dataservice] being [None]. *)
Definition Dataset_DataService (dset : Dataset DataService)
    (name : DataString) : option DataService * option error :=
  match nameMap_lookup dset name with
  | Some dataservice => (Some dataservice, None)
  | None => (None, Some (errCannotFindData name))
  end.

(** [Datasets.DataService] *)
Definition Datasets_DataService (st : Store DataService * Datasets)
    (u : UUID) (name : DataString)
    : option (option DataService * option error) :=
  match versionMap_lookup st.2 u with
  | None => Some (None, Some (errNoNodeWithUUID u))
  | Some p =>
      dataset ← st.1 !! p;
      match nameMap_lookup dataset name with
      | Some dataservice => Some (Some dataservice, None)
      | None => Some (None, Some (errNoDataNamed name u))
      end
  end.

(** Locking a node through the registry, as a caller of the package
    does: [DatasetFromUUID], then [Lock], which [Dataset] promotes from
    its embedded DAG and which updates the Dataset object in place. *)
Definition Datasets_Lock (st : Store DataService * Datasets) (u : UUID)
    : option ((Store DataService * Datasets) * option error) :=
  match DatasetFromUUID st.2 u with
  | (Some p, None) =>
      dset ← st.1 !! p;
      let '(dag, err) := Lock (Dataset_dag dset) u in
      Some ((<[p := with_dag dset dag]> st.1, st.2), err)
  | (_, err) => Some (st, err)
  end.

(** The operations that change a registry. *)
Inductive RegOp :=
| RNewDataset (root : UUID) (t : Time)
| RLock (u : UUID)
| RNewChild (parent fresh : UUID) (t : Time)
| RNewData (u : UUID) (name : DataString) (typeName : string)
    (config : Config).

(** One operation on the registry; [None] is a panic. *)
Definition reg_step (st : Store DataService * Datasets) (op : RegOp)
    : option (Store DataService * Datasets) :=
  match op with
  | RNewDataset root t => fst <$> newDataset LocalID32 KeyDataStart root t st
  | RLock u => fst <$> Datasets_Lock st u
  | RNewChild parent fresh t =>
      fst <$> Datasets_newChild LocalID fresh t st parent
  | RNewData u name typeName config =>
      fst <$> Datasets_newData TypeServiceByName st u name typeName config
  end.

(** A sequence of operations on the registry. *)
Fixpoint reg_run (st : Store DataService * Datasets) (ops : list RegOp)
    : option (Store DataService * Datasets) :=
  match ops with
  | [] => Some st
  | op :: ops => st' ← reg_step st op; reg_run st' ops
  end.

(** A registry whose UUID index agrees with its Datasets: the pointers of
    the sequence are valid, the index is allocated, every entry of the
    index names a Dataset of the sequence that holds the UUID, and every
    UUID of every Dataset of the sequence is indexed. *)
Definition index_agrees (st : Store DataService * Datasets) : Prop :=
  (∀ p, p ∈ Datasets_list st.2 → is_Some (st.1 !! p)) ∧
  is_Some (versionMap st.2) ∧
  (∀ u p, versionMap_lookup st.2 u = Some p →
          p ∈ Datasets_list st.2 ∧
          ∃ dset, st.1 !! p = Some dset ∧
                  is_Some (Nodes (Dataset_dag dset) !! u)) ∧
  (∀ p dset u, p ∈ Datasets_list st.2 → st.1 !! p = Some dset →
               is_Some (Nodes (Dataset_dag dset) !! u) →
               is_Some (versionMap_lookup st.2 u)).

End Registry_lookups.

Arguments AvailableData {DataService}.
Arguments Dataset_DataService {DataService}.
Arguments Datasets_DataService {DataService}.
Arguments Datasets_Lock {DataService}.
Arguments RegOp Config : clear implicits.
Arguments RNewDataset {Config}.
Arguments RLock {Config}.
Arguments RNewChild {Config}.
Arguments RNewData {Config}.
Arguments reg_step LocalID LocalID32 KeyDataStart {Config DataService}.
Arguments reg_run LocalID LocalID32 KeyDataStart {Config DataService}.
Arguments index_agrees {DataService}.

(** ** Data types of the registry *)

(** The line feed that ends a line of [VerifyCompiledTypes]'s message. *)
Definition newline : string := String (Ascii.ascii_of_N 10) "".

Section Registry_types.

Variable DataService : Type.

(** The methods of the [TypeService] interface, which [DataService]
    embeds: [DatatypeUrl()] and [DatatypeName()]. *)
Variable DatatypeUrl : DataService → string.
Variable DatatypeName : DataService → string.

(** [CompiledTypes], a map keyed by type URL declared outside [src/];
    only the presence of a key is used. *)
Variable CompiledTypes : gset string.

(** [fmt.Errorf(errMsg)]: the accumulated message is passed as the
    format string itself. *)
Variable Errorf_format : string → error.

(** The visiting orders of a pass over the registry: one list for each
    Dataset of the sequence, in the order of the sequence, each listing
    the entries of the Dataset's name map in the order [range] visits
    them. *)
Definition visits_registry (st : Store DataService * Datasets)
    (visits : list (list (DataString * DataService))) : Prop :=
  Forall2
    (λ (p : ptr) visit,
       ∃ dset, st.1 !! p = Some dset ∧
               visit ≡ₚ map_to_list (default ∅ (AvailableData dset)))
    (Datasets_list st.2) visits.

(** [Datasets.Datatypes] for given visiting orders. *)
Definition Datatypes_visiting (visits : list (list (DataString * DataService)))
    : gmap string DataService :=
  foldl (λ typemap visit,
           foldl (λ typemap (entry : DataString * DataService),
                    <[DatatypeUrl entry.2 := entry.2]> typemap)
             typemap visit)
    ∅ visits.

(** [fmt.Sprintf("DVID not compiled with support for %s, data type %s
    [%s]\n", name, data.DatatypeName(), data.DatatypeUrl())] *)
Definition msgNotCompiled (name : DataString) (data : DataService) : string :=
  "DVID not compiled with support for " +:+ name +:+ ", data type "
  +:+ DatatypeName data +:+ " [" +:+ DatatypeUrl data +:+ "]" +:+ newline.

(** The body of the inner loop of [VerifyCompiledTypes]. *)
Definition verify_step (errMsg : string) (entry : DataString * DataService)
    : string :=
  if decide (DatatypeUrl entry.2 ∈ CompiledTypes) then errMsg
  else errMsg +:+ msgNotCompiled entry.1 entry.2.

(** [Datasets.VerifyCompiledTypes] for given visiting orders. *)
Definition VerifyCompiledTypes_visiting
    (visits : list (list (DataString * DataService))) : option error :=
  let errMsg :=
    foldl (λ errMsg visit, foldl verify_step errMsg visit) "" visits in
  if String.eqb errMsg "" then None else Some (Errorf_format errMsg).

End Registry_types.

Arguments visits_registry {DataService}.
Arguments Datatypes_visiting {DataService}.
Arguments msgNotCompiled {DataService}.
Arguments verify_step {DataService}.
Arguments VerifyCompiledTypes_visiting {DataService}.

(** ** Per-version mutexes *)

(** [nodeID]: dataset, data and version ids. *)
Definition nodeID : Type := Z * Z * Z.

(** The package variable [versionMutexes], with the number of mutexes
    allocated so far; a [*sync.Mutex] is the rank of its allocation. *)
Record MutexCache := mkMutexCache {
  versionMutexes : gmap nodeID nat;
  mutexes_allocated : nat
}.

(** [init()] *)
Definition init_versionMutexes : MutexCache := mkMutexCache ∅ 0.

(** [VersionMutex], run on its own; [dataset] and [data] are what
    [data.DatasetLocalID()] and [data.DataLocalID()] return. *)
Definition VersionMutex (cache : MutexCache) (dataset data versionID : Z)
    : MutexCache * nat :=
  let id : nodeID := (dataset, data, versionID) in
  match versionMutexes cache !! id with
  | Some vmutex => (cache, vmutex)
  | None =>
      let vmutex := mutexes_allocated cache in
      (mkMutexCache (<[id := vmutex]> (versionMutexes cache))
         (S (mutexes_allocated cache)), vmutex)
  end.

(** The cached mutexes have been allocated and no two triples share
    one. *)
Definition mutexes_distinct (cache : MutexCache) : Prop :=
  ∀ id m, versionMutexes cache !! id = Some m →
          (m < mutexes_allocated cache)%nat ∧
          ∀ id', versionMutexes cache !! id' = Some m → id' = id.

(** ** More test inputs *)

(** [branched_registry] after [newData] for ["grayscale"] at the
    child. *)
Definition grayscale_registry : Store DataID * Datasets :=
  state_after
    (Datasets_newData recorder_types branched_registry (uuid_of 1)
       "grayscale" "recorder" ()).

(** A type URL for the data services of the ["recorder"] type. *)
Definition recorder_url (data : DataID) : string :=
  "dvid/recorder/" +:+ DataID_Name data.

Definition recorder_name (data : DataID) : string := "recorder".
(** * Properties *)

(** ** Fixed-width arithmetic *)

Lemma pow2_split (b : positive) : 2 ^ Z.pos b = 2 * 2 ^ (Z.pos b - 1).
Proof.
  rewrite <- (Z.pow_succ_r 2 (Z.pos b - 1)) by lia.
  f_equal; lia.
Qed.

Lemma int_min_nonpos (T : IntType) : int_min T <= 0.
Proof.
  unfold int_min. destruct (int_signed T); [|lia].
  assert (0 < 2 ^ (Z.pos (int_bits T) - 1)) by (apply Z.pow_pos_nonneg; lia).
  lia.
Qed.

(** No wrap-around inside the range of the type. *)
Lemma wrap_in_range (T : IntType) (z : Z) :
  int_min T <= z <= int_max T → wrap T z = z.
Proof.
  unfold int_min, int_max, wrap. intros Hz.
  pose proof (pow2_split (int_bits T)) as Hp.
  destruct (int_signed T).
  - rewrite Z.mod_small by lia. lia.
  - apply Z.mod_small. lia.
Qed.

Lemma iter_incr_in_range (T : IntType) (n : nat) (k : Z) :
  0 <= k → k + Z.of_nat n <= int_max T →
  Nat.iter n (incr T) k = k + Z.of_nat n.
Proof.
  intros Hk. induction n as [|n IH]; intros Hn; simpl.
  - lia.
  - rewrite IH by lia. unfold incr.
    pose proof (int_min_nonpos T).
    rewrite wrap_in_range by lia. lia.
Qed.

(** ** [VersionDAG.newChild], case by case *)

Section newChild_cases.

Variable LocalID : IntType.
Implicit Types (dag : VersionDAG) (parent fresh u : UUID) (t : Time).

Lemma newChild_absent fresh t dag parent :
  Nodes dag !! parent = None →
  VersionDAG_newChild LocalID fresh t dag parent
  = (dag, ("", Some (errNoNodeFound parent))).
Proof. intros H. unfold VersionDAG_newChild. by rewrite H. Qed.

Lemma newChild_unlocked fresh t dag parent node :
  Nodes dag !! parent = Some node →
  Locked (Node_version node) = false →
  VersionDAG_newChild LocalID fresh t dag parent
  = (dag, ("", Some (errUnlockedParent parent))).
Proof. intros H HL. unfold VersionDAG_newChild. by rewrite H, HL. Qed.

Lemma newChild_locked fresh t dag parent node :
  Nodes dag !! parent = Some node →
  Locked (Node_version node) = true →
  VersionDAG_newChild LocalID fresh t dag parent
  = (mkVersionDAG (Root dag)
       (<[fresh := Node_of (mkNodeVersion fresh (NewVersionID dag) false
                              [fresh] [] t t)]>
          (<[parent := add_child node fresh t]> (Nodes dag)))
       (VersionMap dag) (incr LocalID (NewVersionID dag)) (NewDataID dag),
     (fresh, None)).
Proof. intros H HL. unfold VersionDAG_newChild. by rewrite H, HL. Qed.

(** The three cases are the only ones. *)
Lemma newChild_cases fresh t dag parent :
  (Nodes dag !! parent = None) ∨
  (∃ node, Nodes dag !! parent = Some node ∧
           Locked (Node_version node) = false) ∨
  (∃ node, Nodes dag !! parent = Some node ∧
           Locked (Node_version node) = true).
Proof.
  destruct (Nodes dag !! parent) as [node|]; [|by left].
  right. destruct (Locked (Node_version node)) eqn:HL; eauto.
Qed.

(** A call that returns an error returns the DAG it was given. *)
Lemma newChild_error_unchanged fresh t dag parent dag' u e :
  VersionDAG_newChild LocalID fresh t dag parent = (dag', (u, Some e)) →
  dag' = dag ∧ u = "".
Proof.
  destruct (newChild_cases fresh t dag parent)
    as [H|[(node & H & HL)|(node & H & HL)]].
  - rewrite newChild_absent by done. by intros [= <- <- _].
  - rewrite (newChild_unlocked _ _ _ _ node) by done. by intros [= <- <- _].
  - rewrite (newChild_locked _ _ _ _ node) by done. discriminate.
Qed.

(** A call that returns no error was made on a locked node. *)
Lemma newChild_success_inv fresh t dag parent dag' u :
  VersionDAG_newChild LocalID fresh t dag parent = (dag', (u, None)) →
  ∃ node, Nodes dag !! parent = Some node ∧
          Locked (Node_version node) = true ∧ u = fresh ∧
          VersionDAG_newChild LocalID fresh t dag parent
          = (mkVersionDAG (Root dag)
               (<[fresh := Node_of (mkNodeVersion fresh (NewVersionID dag)
                                      false [fresh] [] t t)]>
                  (<[parent := add_child node fresh t]> (Nodes dag)))
               (VersionMap dag) (incr LocalID (NewVersionID dag))
               (NewDataID dag),
             (fresh, None)).
Proof.
  destruct (newChild_cases fresh t dag parent)
    as [H|[(node & H & HL)|(node & H & HL)]].
  - rewrite newChild_absent by done. discriminate.
  - rewrite (newChild_unlocked _ _ _ _ node) by done. discriminate.
  - rewrite (newChild_locked _ _ _ _ node) by done.
    intros [= <- <-]. by exists node.
Qed.

End newChild_cases.

(** ** The node a successful [newChild] creates *)

(** C1.  The node created by a successful [newChild] does not list
    [parent] in [Parents]: the literal is [[]UUID{u}], so the new node
    lists its own UUID, a link from the node to itself.  Whenever the
    minted UUID differs from [parent], [Parents] is not [[parent]]. *)
Theorem newChild_Parents_own_UUID (LocalID : IntType) (fresh : UUID)
    (t : Time) (dag : VersionDAG) (parent : UUID) dag' u :
  VersionDAG_newChild LocalID fresh t dag parent = (dag', (u, None)) →
  (Parents ∘ Node_version <$> Nodes dag' !! u) = Some [u] ∧
  (u ≠ parent →
   (Parents ∘ Node_version <$> Nodes dag' !! u) ≠ Some [parent]).
Proof.
  intros Hcall.
  destruct (newChild_success_inv _ _ _ _ _ _ _ Hcall)
    as (node & _ & _ & -> & Heq).
  rewrite Heq in Hcall. injection Hcall as <-.
  cbn [Nodes]. rewrite lookup_insert_eq. cbn.
  split; [done|]. intros Hne [= ?]. done.
Qed.

Lemma newChild_Parents_own_UUID_witness :
  VersionDAG_newChild uint16 (uuid_of 1) 1 locked_root_dag (uuid_of 0)
  = (one_child_dag, (uuid_of 1, None)) ∧
  (Parents ∘ Node_version <$> Nodes one_child_dag !! uuid_of 1)
  = Some [uuid_of 1] ∧
  (Parents ∘ Node_version <$> Nodes one_child_dag !! uuid_of 1)
  ≠ Some [uuid_of 0].
Proof.
  assert (Hcall :
    VersionDAG_newChild uint16 (uuid_of 1) 1 locked_root_dag (uuid_of 0)
    = (one_child_dag, (uuid_of 1, None))) by reflexivity.
  destruct (newChild_Parents_own_UUID _ _ _ _ _ _ _ Hcall) as [H1 H2].
  split; [exact Hcall|]. split; [exact H1|].
  apply H2. vm_compute. discriminate.
Defined.

(** C2.  A successful [newChild] never writes [VersionMap]: the new UUID
    enters [Nodes] only.  When the minted UUID is new to the DAG, [Nodes]
    grows by one entry and [VersionMap] keeps its size, so the two sizes,
    equal after [NewVersionDAG], differ from the first child on. *)
Theorem newChild_skips_VersionMap (LocalID : IntType) (fresh : UUID)
    (t : Time) (dag : VersionDAG) (parent : UUID) dag' u :
  VersionDAG_newChild LocalID fresh t dag parent = (dag', (u, None)) →
  Nodes dag !! fresh = None →
  is_Some (Nodes dag' !! u) ∧
  VersionMap dag' = VersionMap dag ∧
  size (Nodes dag') = S (size (Nodes dag)).
Proof.
  intros Hcall Hfresh.
  destruct (newChild_success_inv _ _ _ _ _ _ _ Hcall)
    as (node & Hp & _ & -> & Heq).
  rewrite Heq in Hcall. injection Hcall as <-.
  cbn [Nodes VersionMap]. rewrite lookup_insert_eq.
  split; [eauto|]. split; [done|].
  assert (fresh ≠ parent) by congruence.
  rewrite map_size_insert_None by (by rewrite lookup_insert_ne).
  f_equal. rewrite map_size_insert_Some; [done|eauto].
Qed.

Lemma newChild_skips_VersionMap_witness :
  (size (Nodes locked_root_dag) = 1%nat ∧
   size (VersionMap locked_root_dag) = 1%nat) ∧
  VersionDAG_newChild uint16 (uuid_of 1) 1 locked_root_dag (uuid_of 0)
  = (one_child_dag, (uuid_of 1, None)) ∧
  Nodes locked_root_dag !! uuid_of 1 = None ∧
  VersionMap one_child_dag !! uuid_of 1 = None ∧
  size (Nodes one_child_dag) = 2%nat ∧
  size (VersionMap one_child_dag) = 1%nat.
Proof.
  assert (Hcall :
    VersionDAG_newChild uint16 (uuid_of 1) 1 locked_root_dag (uuid_of 0)
    = (one_child_dag, (uuid_of 1, None))) by reflexivity.
  assert (Hfresh : Nodes locked_root_dag !! uuid_of 1 = None)
    by (vm_compute; reflexivity).
  destruct (newChild_skips_VersionMap _ _ _ _ _ _ _ Hcall Hfresh)
    as (_ & HV & HN).
  split; [split; vm_compute; reflexivity|].
  split; [exact Hcall|]. split; [exact Hfresh|].
  rewrite HV, HN.
  split; [vm_compute; reflexivity|].
  split; vm_compute; reflexivity.
Defined.

(** ** Failed [newChild] calls *)

Section newChild_failures.

Variable LocalID : IntType.
Variable DataService : Type.
Implicit Types (mem : Store DataService) (dsets : Datasets).
Implicit Types (dset : Dataset DataService) (p : ptr).

Lemma with_dag_same dset : with_dag dset (Dataset_dag dset) = dset.
Proof. by destruct dset. Qed.

Lemma Datasets_newChild_unindexed fresh t mem dsets parent :
  versionMap_lookup dsets parent = None →
  Datasets_newChild LocalID fresh t (mem, dsets) parent
  = Some ((mem, dsets), ("", Some (errNoNodeFound parent))).
Proof. intros H. unfold Datasets_newChild. by rewrite H. Qed.

(** The registry level passes the failure of the DAG level on, and the
    Dataset object it reached is as it was. *)
Lemma Datasets_newChild_dag_error fresh t mem dsets parent p dset e :
  versionMap_lookup dsets parent = Some p →
  mem !! p = Some dset →
  VersionDAG_newChild LocalID fresh t (Dataset_dag dset) parent
  = (Dataset_dag dset, ("", Some e)) →
  Datasets_newChild LocalID fresh t (mem, dsets) parent
  = Some ((mem, dsets), ("", Some e)).
Proof.
  intros Hvm Hp Hdag. unfold Datasets_newChild.
  rewrite Hvm, Hp. cbn. rewrite Hdag, with_dag_same.
  unfold Store, ptr in *. by rewrite list_insert_id.
Qed.

End newChild_failures.

(** C3.  [newChild] on a node that is not locked returns the NotLocked
    error, [newChild] on a UUID that [Nodes] (or, at the registry, the
    UUID index) does not hold returns the NotFound error, and in each of
    these cases the state returned is the state given: [Nodes],
    [VersionMap], [NewVersionID], every [Children] list, the Dataset
    objects and the registry's [versionMap] are unchanged. *)
Theorem newChild_failure_mutates_nothing (LocalID : IntType)
    (DataService : Type) (fresh : UUID) (t : Time) (parent : UUID) :
  (∀ dag node,
     Nodes dag !! parent = Some node →
     Locked (Node_version node) = false →
     VersionDAG_newChild LocalID fresh t dag parent
     = (dag, ("", Some (errUnlockedParent parent)))) ∧
  (∀ dag,
     Nodes dag !! parent = None →
     VersionDAG_newChild LocalID fresh t dag parent
     = (dag, ("", Some (errNoNodeFound parent)))) ∧
  (∀ (mem : Store DataService) dsets,
     versionMap_lookup dsets parent = None →
     Datasets_newChild LocalID fresh t (mem, dsets) parent
     = Some ((mem, dsets), ("", Some (errNoNodeFound parent)))) ∧
  (∀ (mem : Store DataService) dsets p dset,
     versionMap_lookup dsets parent = Some p →
     mem !! p = Some dset →
     Nodes (Dataset_dag dset) !! parent = None →
     Datasets_newChild LocalID fresh t (mem, dsets) parent
     = Some ((mem, dsets), ("", Some (errNoNodeFound parent)))) ∧
  (∀ (mem : Store DataService) dsets p dset node,
     versionMap_lookup dsets parent = Some p →
     mem !! p = Some dset →
     Nodes (Dataset_dag dset) !! parent = Some node →
     Locked (Node_version node) = false →
     Datasets_newChild LocalID fresh t (mem, dsets) parent
     = Some ((mem, dsets), ("", Some (errUnlockedParent parent)))).
Proof.
  split; [|split; [|split; [|split]]].
  - intros dag node. apply newChild_unlocked.
  - intros dag. apply newChild_absent.
  - intros mem dsets. apply Datasets_newChild_unindexed.
  - intros mem dsets p dset Hvm Hp Hnone.
    eapply Datasets_newChild_dag_error; [done..|].
    by apply newChild_absent.
  - intros mem dsets p dset node Hvm Hp Hnode HL.
    eapply Datasets_newChild_dag_error; [done..|].
    by eapply newChild_unlocked.
Qed.

Lemma newChild_failure_mutates_nothing_witness :
  (versionMap_lookup fresh_registry.2 (uuid_of 0) = Some 0%nat ∧
   fresh_registry.1 !! 0%nat = Some fresh_dataset ∧
   Nodes (Dataset_dag fresh_dataset) !! uuid_of 0 = Some fresh_root_node ∧
   Locked (Node_version fresh_root_node) = false ∧
   versionMap_lookup fresh_registry.2 (uuid_of 7) = None) ∧
  Datasets_newChild uint16 (uuid_of 1) 1 fresh_registry (uuid_of 0)
  = Some (fresh_registry, ("", Some (errUnlockedParent (uuid_of 0)))) ∧
  Datasets_newChild uint16 (uuid_of 1) 1 fresh_registry (uuid_of 7)
  = Some (fresh_registry, ("", Some (errNoNodeFound (uuid_of 7)))).
Proof.
  assert (H1 : versionMap_lookup fresh_registry.2 (uuid_of 0) = Some 0%nat)
    by (vm_compute; reflexivity).
  assert (H2 : fresh_registry.1 !! 0%nat = Some fresh_dataset)
    by (vm_compute; reflexivity).
  assert (H3 : Nodes (Dataset_dag fresh_dataset) !! uuid_of 0
               = Some fresh_root_node) by (vm_compute; reflexivity).
  assert (H4 : Locked (Node_version fresh_root_node) = false)
    by reflexivity.
  assert (H5 : versionMap_lookup fresh_registry.2 (uuid_of 7) = None)
    by (vm_compute; reflexivity).
  split; [by repeat split|].
  split.
  - destruct (newChild_failure_mutates_nothing uint16 DataID (uuid_of 1) 1
                (uuid_of 0)) as (_ & _ & _ & _ & Hunlocked).
    exact (Hunlocked fresh_registry.1 fresh_registry.2 _ _ _ H1 H2 H3 H4).
  - destruct (newChild_failure_mutates_nothing uint16 DataID (uuid_of 1) 1
                (uuid_of 7)) as (_ & _ & Habsent & _).
    exact (Habsent fresh_registry.1 fresh_registry.2 H5).
Defined.

(** ** Local version ids *)

Section version_ids.

Variable LocalID : IntType.

(** What one operation does to the counter. *)
Lemma apply_op_counter dag op dag' id :
  apply_op LocalID dag op = (dag', id) →
  (id = None ∧ NewVersionID dag' = NewVersionID dag) ∨
  (id = Some (NewVersionID dag) ∧
   NewVersionID dag' = incr LocalID (NewVersionID dag)).
Proof.
  destruct op as [u|parent fresh t]; cbn.
  - intros [= <- <-]. left. split; [done|].
    unfold Lock. by destruct (Nodes dag !! u).
  - destruct (VersionDAG_newChild LocalID fresh t dag parent)
      as [dag1 [u [e|]]] eqn:Hcall.
    + intros [= <- <-]. left. split; [done|].
      by destruct (newChild_error_unchanged _ _ _ _ _ _ _ _ Hcall) as [-> _].
    + intros [= <- <-]. right.
      destruct (newChild_success_inv _ _ _ _ _ _ _ Hcall)
        as (node & _ & _ & -> & Heq).
      rewrite Heq in Hcall. injection Hcall as <-.
      unfold node_VersionID. cbn [Nodes NewVersionID].
      by rewrite lookup_insert_eq.
Qed.

(** The ids handed out by a history are the successive values of the
    counter, and the counter ends after the last of them. *)
Lemma run_ops_counter ops : ∀ dag dag' ids,
  run_ops LocalID dag ops = (dag', ids) →
  NewVersionID dag'
  = Nat.iter (length ids) (incr LocalID) (NewVersionID dag) ∧
  ids = (λ i, Nat.iter i (incr LocalID) (NewVersionID dag))
          <$> seq 0 (length ids).
Proof.
  induction ops as [|op ops IH]; intros dag dag' ids; cbn.
  - by intros [= <- <-].
  - destruct (apply_op LocalID dag op) as [dag1 id] eqn:Hop.
    destruct (run_ops LocalID dag1 ops) as [dag2 ids'] eqn:Hrun.
    intros [= <- <-].
    destruct (IH _ _ _ Hrun) as [Hc Hids].
    destruct (apply_op_counter _ _ _ _ Hop) as [[-> Hk]|[-> Hk]];
      rewrite Hk in Hc, Hids.
    + done.
    + change (option_list (Some (NewVersionID dag)) ++ ids')
        with (NewVersionID dag :: ids').
      rewrite length_cons, Nat.iter_succ_r. split; [done|].
      cbn [seq fmap list_fmap Nat.iter]. f_equal.
      rewrite <- fmap_S_seq, <- list_fmap_compose.
      rewrite Hids at 1. apply list_fmap_ext. intros _ i _.
      unfold compose. by rewrite Nat.iter_succ_r.
Qed.

End version_ids.

(** C4 (amended).  The root gets local id 0 and [NewVersionDAG] sets
    the counter to 1; a successful [newChild] gives the child the current
    value of [NewVersionID] and increments it.  As long as the number of
    children created stays below the largest value of [dvid.LocalID], the
    ids handed out are [1, 2, ..., N] in creation order (with the root:
    exactly [0..N]) and [NewVersionID] is [N + 1], above all of them. *)
Theorem version_ids_in_creation_order (LocalID : IntType) (root : UUID)
    (t : Time) (ops : list DagOp) (dag : VersionDAG) (ids : list Z) :
  run_ops LocalID (NewVersionDAG root t) ops = (dag, ids) →
  Z.of_nat (length ids) + 1 <= int_max LocalID →
  node_VersionID (NewVersionDAG root t) root = Some 0 ∧
  NewVersionID (NewVersionDAG root t) = 1 ∧
  (∀ fresh t' dag0 parent dag1 u,
     VersionDAG_newChild LocalID fresh t' dag0 parent = (dag1, (u, None)) →
     node_VersionID dag1 u = Some (NewVersionID dag0) ∧
     NewVersionID dag1 = incr LocalID (NewVersionID dag0)) ∧
  ids = seqZ 1 (Z.of_nat (length ids)) ∧
  NewVersionID dag = Z.of_nat (length ids) + 1 ∧
  Forall (λ id, id < NewVersionID dag) (0 :: ids).
Proof.
  intros Hrun Hbound.
  split; [unfold node_VersionID; cbn; by rewrite lookup_insert_eq|].
  split; [done|].
  split.
  { intros fresh t' dag0 parent dag1 u Hcall.
    pose proof (apply_op_counter LocalID dag0 (OpNewChild parent fresh t')
                  dag1 (node_VersionID dag1 u)) as Hop.
    cbn in Hop. rewrite Hcall in Hop.
    destruct (Hop eq_refl) as [[Hn Hk]|[Hn Hk]]; [|done].
    destruct (newChild_success_inv _ _ _ _ _ _ _ Hcall)
      as (node & _ & _ & -> & Heq).
    rewrite Heq in Hcall. injection Hcall as <-.
    unfold node_VersionID in Hn. cbn in Hn.
    by rewrite lookup_insert_eq in Hn. }
  destruct (run_ops_counter _ _ _ _ _ Hrun) as [Hc Hids].
  cbn [NewVersionID NewVersionDAG] in Hc, Hids.
  assert (Hseq : ids = seqZ 1 (Z.of_nat (length ids))).
  { rewrite Hids at 1. unfold seqZ. rewrite Nat2Z.id.
    apply list_fmap_ext. intros j i Hi.
    apply lookup_seq in Hi as [-> Hi].
    rewrite iter_incr_in_range by lia. lia. }
  assert (Hnew : NewVersionID dag = Z.of_nat (length ids) + 1).
  { rewrite Hc, iter_incr_in_range by lia. lia. }
  split; [done|]. split; [done|].
  rewrite Hnew. constructor; [lia|].
  rewrite Hseq. apply Forall_forall. intros id Hid.
  apply elem_of_seqZ in Hid. rewrite length_seqZ in *. lia.
Qed.

(** Three children of a locked root, with a 16-bit counter. *)
Lemma version_ids_in_creation_order_witness :
  run_ops int16 (NewVersionDAG (uuid_of 0) 0) (branch_from_root (uuid_of 0) 3)
  = (three_children_dag, [1; 2; 3]) ∧
  Z.of_nat (length [1; 2; 3]) + 1 <= int_max int16 ∧
  [1; 2; 3] = seqZ 1 (Z.of_nat (length [1; 2; 3])) ∧
  NewVersionID three_children_dag = Z.of_nat (length [1; 2; 3]) + 1.
Proof.
  assert (Hrun :
    run_ops int16 (NewVersionDAG (uuid_of 0) 0)
      (branch_from_root (uuid_of 0) 3)
    = (three_children_dag, [1; 2; 3])) by (vm_compute; reflexivity).
  assert (Hbound : Z.of_nat (length [1; 2; 3]) + 1 <= int_max int16)
    by (vm_compute; discriminate).
  split; [exact Hrun|]. split; [exact Hbound|].
  destruct (version_ids_in_creation_order int16 _ _ _ _ _ Hrun Hbound)
    as (_ & _ & _ & Hids & Hnew & _).
  split; [exact Hids|exact Hnew].
Defined.

(** Branching from a locked node succeeds every time, provided no minted
    UUID collides with the node's own. *)
Lemma branch_from_locked_all_succeed (LocalID : IntType) (root : UUID)
    (calls : list DagOp) : ∀ dag node,
  Nodes dag !! root = Some node →
  Locked (Node_version node) = true →
  Forall (λ op, ∃ fresh t, op = OpNewChild root fresh t ∧ fresh ≠ root)
    calls →
  length (run_ops LocalID dag calls).2 = length calls.
Proof.
  induction calls as [|op calls IH]; intros dag node Hroot HL Hall; [done|].
  apply Forall_cons in Hall as [(fresh & t & -> & Hne) Hall].
  cbn. rewrite (newChild_locked _ _ _ _ _ node) by done.
  unfold node_VersionID at 1. cbn [Nodes]. rewrite lookup_insert_eq. cbn.
  match goal with |- context [run_ops _ ?d _] => specialize (IH d) end.
  destruct (run_ops _ _ calls) as [dag2 ids]. cbn in *.
  f_equal. apply (IH (add_child node fresh t)); [|exact HL|done].
  rewrite lookup_insert_ne by done. apply lookup_insert_eq.
Qed.

Lemma branch_ops_length (root : UUID) (n : nat) : ∀ k,
  length (branch_ops root k n) = n.
Proof. induction n as [|n IH]; intros k; cbn; [done|by rewrite IH]. Qed.

(** The first digit of a rendering is the most significant one. *)
Lemma hex_of_head (w : nat) : ∀ (n : N) (acc : string),
  ∃ rest, hex_of (S w) n acc
          = String (hex_digit ((n / 16 ^ N.of_nat w) mod 16)%N) rest.
Proof.
  induction w as [|w IH]; intros n acc.
  - exists acc. cbn [hex_of]. by rewrite N.div_1_r.
  - destruct (IH (n / 16)%N (String (hex_digit (n mod 16)%N) acc))
      as [rest Hrest].
    exists rest. change (hex_of (S (S w)) n acc)
      with (hex_of (S w) (n / 16)%N (String (hex_digit (n mod 16)%N) acc)).
    rewrite Hrest. do 3 f_equal.
    rewrite N.Div0.div_div, Nat2N.inj_succ, N.pow_succ_r'. done.
Qed.

Lemma child_uuid_not_root (k : N) :
  (k < 2 ^ 124)%N → child_uuid k ≠ uuid_of 0.
Proof.
  intros Hk. unfold child_uuid, uuid_of.
  destruct (hex_of_head 31 (2 ^ 124 + k) "") as [rest ->].
  destruct (hex_of_head 31 0 "") as [rest0 ->].
  change (16 ^ N.of_nat 31)%N with (2 ^ 124)%N.
  change (hex_digit ((0 / 2 ^ 124) mod 16)%N) with (Ascii.ascii_of_N 48).
  set (B := (2 ^ 124)%N) in *.
  rewrite <- (N.div_unique (B + k) B 1 k) by lia.
  change (hex_digit (1 mod 16)%N) with (Ascii.ascii_of_N 49).
  by intros [= ?].
Qed.

Lemma branch_ops_fresh (n : nat) : ∀ k,
  (k + N.of_nat n <= 2 ^ 124)%N →
  Forall (λ op, ∃ fresh t, op = OpNewChild (uuid_of 0) fresh t ∧
                           fresh ≠ uuid_of 0)
    (branch_ops (uuid_of 0) k n).
Proof.
  induction n as [|n IH]; intros k Hk; cbn [branch_ops].
  - constructor.
  - constructor; [|apply IH; lia].
    eexists _, _. split; [done|]. apply child_uuid_not_root. lia.
Qed.

Lemma branch_from_root_all_succeed (LocalID : IntType) (t : Time) (n : nat) :
  (1 + N.of_nat n <= 2 ^ 124)%N →
  length (run_ops LocalID (NewVersionDAG (uuid_of 0) t)
            (branch_from_root (uuid_of 0) n)).2
  = n.
Proof.
  intros Hn. unfold branch_from_root.
  cbn [run_ops apply_op]. unfold Lock at 1.
  cbn [NewVersionDAG Nodes]. rewrite lookup_insert_eq. cbn [fst].
  match goal with |- context [run_ops _ ?d ?l] =>
    pose proof (branch_from_locked_all_succeed LocalID (uuid_of 0) l d)
      as Hall;
    destruct (run_ops LocalID d l) as [dag ids] end.
  cbn [snd] in *. change (option_list None ++ ids) with ids.
  rewrite (Hall (lock_node
                   (Node_of (mkNodeVersion (uuid_of 0) 0 false [] [] t t)))).
  - apply branch_ops_length.
  - apply lookup_insert_eq.
  - reflexivity.
  - by apply branch_ops_fresh.
Qed.

(** The history [branch_run LocalID n]: every call succeeds, and the ids
    and the counter are the successive values of [NewVersionID]. *)
Lemma branch_run_spec (LocalID : IntType) (n : Z) :
  1 + n <= 2 ^ 124 →
  length (branch_run LocalID n).2 = Z.to_nat n ∧
  NewVersionID (branch_run LocalID n).1
  = Nat.iter (Z.to_nat n) (incr LocalID) 1 ∧
  ∀ i, (i < Z.to_nat n)%nat →
       (branch_run LocalID n).2 !! i = Some (Nat.iter i (incr LocalID) 1).
Proof.
  intros Hn. unfold branch_run.
  assert (Hn' : (1 + N.of_nat (Z.to_nat n) <= 2 ^ 124)%N).
  { change (2 ^ 124)%N with (Z.to_N (2 ^ 124)). lia. }
  pose proof (branch_from_root_all_succeed LocalID 0 _ Hn') as Hlen.
  match type of Hlen with length (?r).2 = _ =>
    destruct (run_ops_counter LocalID _ _ r.1 r.2 (surjective_pairing r))
      as [Hc Hids];
    generalize dependent r end.
  intros run Hlen Hc Hids.
  cbn [NewVersionDAG NewVersionID] in Hc, Hids.
  rewrite Hlen in Hc, Hids.
  split; [done|]. split; [done|].
  intros i Hi. rewrite Hids, list_lookup_fmap, lookup_seq_lt by done.
  done.
Qed.

(** Incrementing the largest value of the type gives the smallest. *)
Lemma incr_int_max (T : IntType) : incr T (int_max T) = int_min T.
Proof.
  unfold incr, wrap, int_max, int_min.
  pose proof (pow2_split (int_bits T)) as Hp.
  destruct (int_signed T).
  - replace (2 ^ (Z.pos (int_bits T) - 1) - 1 + 1
             + 2 ^ (Z.pos (int_bits T) - 1))
      with (2 ^ Z.pos (int_bits T)) by lia.
    rewrite Z.mod_same; [lia|]. apply Z.pow_nonzero; lia.
  - replace (2 ^ Z.pos (int_bits T) - 1 + 1) with (2 ^ Z.pos (int_bits T))
      by lia.
    apply Z.mod_same. apply Z.pow_nonzero; lia.
Qed.

(** The history that creates as many children as the largest value of
    [LocalID]: the last child gets that value as its id and the counter
    wraps around to the smallest value of the type. *)
Lemma branch_run_wraps (LocalID : IntType) :
  1 <= int_max LocalID → 1 + int_max LocalID <= 2 ^ 124 →
  length (branch_run LocalID (int_max LocalID)).2
  = Z.to_nat (int_max LocalID) ∧
  (branch_run LocalID (int_max LocalID)).2
    !! Z.to_nat (int_max LocalID - 1) = Some (int_max LocalID) ∧
  NewVersionID (branch_run LocalID (int_max LocalID)).1 = int_min LocalID.
Proof.
  intros Hmax Hsmall.
  destruct (branch_run_spec LocalID (int_max LocalID) Hsmall)
    as (Hlen & Hc & Hids).
  split; [exact Hlen|]. split.
  - rewrite Hids by lia. f_equal.
    rewrite iter_incr_in_range by lia. lia.
  - rewrite Hc.
    replace (Z.to_nat (int_max LocalID))
      with (S (Z.to_nat (int_max LocalID - 1))) by lia.
    rewrite Nat.iter_succ, iter_incr_in_range by lia.
    replace (1 + Z.of_nat (Z.to_nat (int_max LocalID - 1)))
      with (int_max LocalID) by lia.
    apply incr_int_max.
Qed.

(** C4, as stated, fails once the counter reaches the largest value of
    [dvid.LocalID]: the child created then gets that value as its id and
    the increment wraps [NewVersionID] around, so the counter no longer
    exceeds the ids handed out.  With a signed 16-bit [LocalID] this is
    the 32767th child of a locked root, with an unsigned one the
    65535th. *)
Lemma version_ids_wrap_around :
  (length (branch_run int16 32767).2 = Z.to_nat 32767 ∧
   (branch_run int16 32767).2 !! Z.to_nat 32766 = Some 32767 ∧
   NewVersionID (branch_run int16 32767).1 = -32768) ∧
  (length (branch_run uint16 65535).2 = Z.to_nat 65535 ∧
   (branch_run uint16 65535).2 !! Z.to_nat 65534 = Some 65535 ∧
   NewVersionID (branch_run uint16 65535).1 = 0).
Proof.
  split.
  - apply (branch_run_wraps int16); [done|].
    change (int_max int16) with 32767. lia.
  - apply (branch_run_wraps uint16); [done|].
    change (int_max uint16) with 65535. lia.
Qed.

(** ** [Dataset.NewData] *)

Section NewData_props.

Context {Config DataService : Type}.
Variable TypeServiceByName : string → TypeService Config DataService + error.
Implicit Types (dset : Dataset DataService) (name : DataString).

Lemma NewData_present dset name typeName config ds :
  nameMap_lookup dset name = Some ds →
  NewData TypeServiceByName dset name typeName config
  = (dset, Some (errDataExists name (Root (Dataset_dag dset)))).
Proof. intros H. unfold NewData. by rewrite H. Qed.

(** A call that returns an error returns the Dataset it was given. *)
Lemma NewData_error_unchanged dset name typeName config dset' e :
  NewData TypeServiceByName dset name typeName config = (dset', Some e) →
  dset' = dset.
Proof.
  unfold NewData.
  destruct (nameMap_lookup dset name); [by intros [= <- _]|].
  destruct (TypeServiceByName typeName) as [ts|]; [|by intros [= <- _]].
  destruct (ts _ config); [discriminate|by intros [= <- _]].
Qed.

(** After a call that returns no error, the name is taken. *)
Lemma NewData_success_present dset name typeName config dset' :
  NewData TypeServiceByName dset name typeName config = (dset', None) →
  is_Some (nameMap_lookup dset' name).
Proof.
  unfold NewData.
  destruct (nameMap_lookup dset name); [discriminate|].
  destruct (TypeServiceByName typeName) as [ts|]; [|discriminate].
  destruct (ts _ config) as [ds|]; [|discriminate].
  intros [= <-]. unfold nameMap_lookup. cbn.
  rewrite lookup_insert_eq. eauto.
Qed.

(** No path through [NewData] writes [NewDataID]. *)
Lemma NewData_counter dset name typeName config :
  NewDataID
    (Dataset_dag (NewData TypeServiceByName dset name typeName config).1)
  = NewDataID (Dataset_dag dset).
Proof.
  unfold NewData.
  destruct (nameMap_lookup dset name); [done|].
  destruct (TypeServiceByName typeName) as [ts|]; [|done].
  by destruct (ts _ config).
Qed.

End NewData_props.

(** C8.  [NewData] with a name that is already in the name map fails
    with the AlreadyExists error and returns the Dataset as it was (name
    map and data-id counter included); so after a successful [NewData],
    a second call with the same name fails, whatever its type name and
    configuration. *)
Theorem NewData_duplicate_name_rejected {Config DataService : Type}
    (TypeServiceByName : string → TypeService Config DataService + error)
    (dset : Dataset DataService) (name : DataString) :
  (∀ typeName config ds,
     nameMap_lookup dset name = Some ds →
     NewData TypeServiceByName dset name typeName config
     = (dset, Some (errDataExists name (Root (Dataset_dag dset))))) ∧
  (∀ typeName config dset1 typeName' config',
     NewData TypeServiceByName dset name typeName config = (dset1, None) →
     NewData TypeServiceByName dset1 name typeName' config'
     = (dset1, Some (errDataExists name (Root (Dataset_dag dset1))))).
Proof.
  split.
  - intros typeName config ds. apply NewData_present.
  - intros typeName config dset1 typeName' config' Hfirst.
    destruct (NewData_success_present _ _ _ _ _ _ Hfirst) as [ds Hds].
    by eapply NewData_present.
Qed.

Lemma NewData_duplicate_name_rejected_witness :
  NewData recorder_types fresh_dataset "grayscale" "recorder" ()
  = (one_data_dataset, None) ∧
  NewData recorder_types one_data_dataset "grayscale" "recorder" ()
  = (one_data_dataset,
     Some (errDataExists "grayscale" (Root (Dataset_dag one_data_dataset)))).
Proof.
  assert (Hfirst :
    NewData recorder_types fresh_dataset "grayscale" "recorder" ()
    = (one_data_dataset, None)) by (vm_compute; reflexivity).
  split; [exact Hfirst|].
  exact (proj2 (NewData_duplicate_name_rejected recorder_types fresh_dataset
                  "grayscale") _ _ _ "recorder" () Hfirst).
Defined.

(** C5.  [NewData] never advances [NewDataID]: whatever the call does,
    the counter is what it was.  The constructor receives the current
    value each time, so two data instances created one after the other
    in the same Dataset receive the same data id; here both receive
    [KeyDataStart = 1]. *)
Theorem NewData_reuses_data_id :
  (∀ (Config DataService : Type)
     (TypeServiceByName : string → TypeService Config DataService + error)
     dset name typeName config,
     NewDataID
       (Dataset_dag (NewData TypeServiceByName dset name typeName config).1)
     = NewDataID (Dataset_dag dset)) ∧
  NewData recorder_types fresh_dataset "grayscale" "recorder" ()
  = (one_data_dataset, None) ∧
  NewData recorder_types one_data_dataset "labels" "recorder" ()
  = (two_data_dataset, None) ∧
  nameMap_lookup two_data_dataset "grayscale"
  = Some (mkDataID "grayscale" 1 0) ∧
  nameMap_lookup two_data_dataset "labels" = Some (mkDataID "labels" 1 0) ∧
  NewDataID (Dataset_dag two_data_dataset) = 1.
Proof.
  split; [intros; apply NewData_counter|].
  repeat split; vm_compute; reflexivity.
Qed.

(** ** Prefix resolution *)

Section matching_entries.

Context {A : Type}.
Variable str : string.
Implicit Types (m : gmap UUID A) (visit : list (UUID * A)).

Lemma matching_cons_true e visit :
  HasPrefix e.1 str = true →
  matching str (e :: visit) = e :: matching str visit.
Proof. intros H. unfold matching. by rewrite filter_cons_True. Qed.

Lemma matching_cons_false e visit :
  HasPrefix e.1 str = false →
  matching str (e :: visit) = matching str visit.
Proof.
  intros H. unfold matching. rewrite filter_cons_False; [done|].
  cbn. congruence.
Qed.

Lemma elem_of_matching m visit u x :
  visit ≡ₚ map_to_list m →
  (u, x) ∈ matching str visit ↔ m !! u = Some x ∧ HasPrefix u str = true.
Proof.
  intros Hperm. unfold matching.
  rewrite list_elem_of_filter, Hperm, elem_of_map_to_list. cbn. tauto.
Qed.

Lemma NoDup_matching m visit :
  visit ≡ₚ map_to_list m → NoDup (matching str visit).
Proof.
  intros Hperm. apply NoDup_filter. rewrite Hperm.
  apply NoDup_map_to_list.
Qed.

(** No key starts with [str]. *)
Lemma matching_none m visit :
  visit ≡ₚ map_to_list m →
  (∀ u, is_Some (m !! u) → HasPrefix u str = false) →
  matching str visit = [].
Proof.
  intros Hperm Hnone.
  destruct (matching str visit) as [|[u x] l] eqn:Hm; [done|].
  assert (Hin : (u, x) ∈ matching str visit) by (rewrite Hm; left).
  apply (elem_of_matching m) in Hin as [Hu Hpre]; [|done].
  rewrite Hnone in Hpre by eauto. discriminate.
Qed.

(** Exactly one key starts with [str]. *)
Lemma matching_unique m visit u x :
  visit ≡ₚ map_to_list m →
  m !! u = Some x → HasPrefix u str = true →
  (∀ u', is_Some (m !! u') → HasPrefix u' str = true → u' = u) →
  matching str visit = [(u, x)].
Proof.
  intros Hperm Hu Hpre Huniq.
  assert (Hall : ∀ e, e ∈ matching str visit → e = (u, x)).
  { intros [u' x'] [Hu' Hpre']%(elem_of_matching m); [|done].
    assert (u' = u) as -> by eauto. congruence. }
  assert (Hin : (u, x) ∈ matching str visit)
    by (by apply (elem_of_matching m)).
  pose proof (NoDup_matching m visit Hperm) as Hnd.
  destruct (matching str visit) as [|e1 [|e2 l]].
  - by apply elem_of_nil in Hin.
  - f_equal. apply Hall. left.
  - exfalso. apply NoDup_cons in Hnd as [Hnotin _]. apply Hnotin.
    rewrite (Hall e1), (Hall e2); [left| right; left | left].
Qed.

(** Two keys or more start with [str]. *)
Lemma matching_several m visit u1 u2 :
  visit ≡ₚ map_to_list m →
  u1 ≠ u2 → is_Some (m !! u1) → is_Some (m !! u2) →
  HasPrefix u1 str = true → HasPrefix u2 str = true →
  ∃ e1 e2 l, matching str visit = e1 :: e2 :: l.
Proof.
  intros Hperm Hne [x1 H1] [x2 H2] Hp1 Hp2.
  assert (Hin1 : (u1, x1) ∈ matching str visit)
    by (by apply (elem_of_matching m)).
  assert (Hin2 : (u2, x2) ∈ matching str visit)
    by (by apply (elem_of_matching m)).
  destruct (matching str visit) as [|e1 [|e2 l]]; [| |eauto].
  - by apply elem_of_nil in Hin1.
  - apply list_elem_of_singleton in Hin1, Hin2. congruence.
Qed.

(** Every matching entry is an entry of the map. *)
Lemma last_matching m visit u x :
  visit ≡ₚ map_to_list m →
  last (matching str visit) = Some (u, x) →
  m !! u = Some x ∧ HasPrefix u str = true.
Proof.
  intros Hperm Hlast. apply (elem_of_matching m visit); [done|].
  apply last_Some in Hlast as [l ->]. apply elem_of_app. right. left.
Qed.

End matching_entries.

(** The loop of [VersionIdFromString] counts the matching entries and
    keeps the id of the last one. *)
Lemma VersionId_loop (str : string) (visit : list (UUID * Z)) : ∀ n id,
  foldl (Versioning.match_step str) (n, id) visit
  = (n + Z.of_nat (length (matching str visit)),
     default id (snd <$> last (matching str visit))).
Proof.
  induction visit as [|e visit IH]; intros n id; cbn [foldl].
  - cbn. f_equal. lia.
  - change (Versioning.match_step str (n, id) e)
      with (if HasPrefix e.1 str then (n + 1, e.2) else (n, id)).
    destruct (HasPrefix e.1 str) eqn:He.
    + rewrite matching_cons_true, IH by done. cbn [length fst snd].
      f_equal; [lia|]. rewrite last_cons.
      by destruct (last (matching str visit)).
    + by rewrite matching_cons_false, IH.
Qed.

(** The loop of [DatasetFromString] counts the matching entries and keeps
    the last one. *)
Lemma Dataset_loop (str : string) (visit : list (UUID * ptr)) : ∀ n d u,
  foldl (match_step str) (n, d, u) visit
  = (n + Z.of_nat (length (matching str visit)),
     from_option (Some ∘ snd) d (last (matching str visit)),
     from_option fst u (last (matching str visit))).
Proof.
  induction visit as [|e visit IH]; intros n d u; cbn [foldl].
  - cbn. do 2 f_equal. lia.
  - change (match_step str (n, d, u) e)
      with (if HasPrefix e.1 str then (n + 1, Some e.2, e.1) else (n, d, u)).
    destruct (HasPrefix e.1 str) eqn:He.
    + rewrite matching_cons_true, IH by done. cbn [length fst snd].
      rewrite last_cons.
      destruct (last (matching str visit)); cbn; do 2 f_equal; lia.
    + by rewrite matching_cons_false, IH.
Qed.

(** [VersionIdFromString] by the number of matching entries. *)
Lemma VersionIdFromString_matching (str : string) (visit : list (UUID * Z)) :
  Versioning.VersionIdFromString_visiting visit str
  = match matching str visit with
    | [] => (0, Some (errNoPartialMatch str))
    | [e] => (e.2, None)
    | _ :: _ :: _ => (0, Some (errMoreThanOneMatch str))
    end.
Proof.
  unfold Versioning.VersionIdFromString_visiting. rewrite VersionId_loop.
  destruct (matching str visit) as [|e1 [|e2 l]]; [done..|].
  cbn [length]. destruct (1 <? _) eqn:Hlt; [done|].
  apply Z.ltb_ge in Hlt. lia.
Qed.

(** [DatasetFromString] by the number of matching entries. *)
Lemma DatasetFromString_matching (str : string) (visit : list (UUID * ptr)) :
  DatasetFromString_visiting visit str
  = match matching str visit with
    | [] => (None, "", Some (errNoPartialMatch str))
    | [e] => (Some e.2, e.1, None)
    | e1 :: e2 :: l =>
        (Some (default e1 (last (e2 :: l))).2,
         (default e1 (last (e2 :: l))).1,
         Some (errMoreThanOneMatch str))
    end.
Proof.
  unfold DatasetFromString_visiting. rewrite Dataset_loop.
  destruct (matching str visit) as [|e1 [|e2 l]]; [done..|].
  cbn [length]. destruct (1 <? _) eqn:Hlt.
  - rewrite last_cons. by destruct (last (e2 :: l)).
  - apply Z.ltb_ge in Hlt. lia.
Qed.

(** C7.  Prefix resolution, for every index, every order in which the
    loop may visit it and every prefix: when exactly one UUID starts with
    [str] the call returns that entry and no error; when none does it
    returns the NotFound error; when two or more do it returns the
    Ambiguous error.  This holds of [VersionIdFromString] on a DAG and of
    [DatasetFromString] on the registry. *)
Theorem prefix_resolution (str : string) :
  (∀ (dag : Versioning.VersionDAG) (visit : list (UUID * Z)),
     visit ≡ₚ map_to_list (Versioning.VersionMap dag) →
     (∀ u id,
        Versioning.VersionMap dag !! u = Some id →
        HasPrefix u str = true →
        (∀ u', is_Some (Versioning.VersionMap dag !! u') →
               HasPrefix u' str = true → u' = u) →
        Versioning.VersionIdFromString_visiting visit str = (id, None)) ∧
     ((∀ u, is_Some (Versioning.VersionMap dag !! u) →
            HasPrefix u str = false) →
      Versioning.VersionIdFromString_visiting visit str
      = (0, Some (errNoPartialMatch str))) ∧
     (∀ u1 u2,
        u1 ≠ u2 →
        is_Some (Versioning.VersionMap dag !! u1) →
        is_Some (Versioning.VersionMap dag !! u2) →
        HasPrefix u1 str = true → HasPrefix u2 str = true →
        Versioning.VersionIdFromString_visiting visit str
        = (0, Some (errMoreThanOneMatch str)))) ∧
  (∀ (dsets : Datasets) (visit : list (UUID * ptr)),
     visit ≡ₚ versionMap_entries dsets →
     (∀ u p,
        versionMap_lookup dsets u = Some p →
        HasPrefix u str = true →
        (∀ u', is_Some (versionMap_lookup dsets u') →
               HasPrefix u' str = true → u' = u) →
        DatasetFromString_visiting visit str = (Some p, u, None)) ∧
     ((∀ u, is_Some (versionMap_lookup dsets u) → HasPrefix u str = false) →
      DatasetFromString_visiting visit str
      = (None, "", Some (errNoPartialMatch str))) ∧
     (∀ u1 u2,
        u1 ≠ u2 →
        is_Some (versionMap_lookup dsets u1) →
        is_Some (versionMap_lookup dsets u2) →
        HasPrefix u1 str = true → HasPrefix u2 str = true →
        (DatasetFromString_visiting visit str).2
        = Some (errMoreThanOneMatch str))).
Proof.
  split.
  - intros dag visit Hperm. rewrite VersionIdFromString_matching.
    set (m := Versioning.VersionMap dag) in *.
    split; [|split].
    + intros u id Hu Hpre Huniq.
      by rewrite (matching_unique str m visit u id).
    + intros Hnone. by rewrite (matching_none str m visit).
    + intros u1 u2 Hne H1 H2 Hp1 Hp2.
      by destruct (matching_several str m visit u1 u2)
        as (e1 & e2 & l & ->).
  - intros dsets visit Hperm. rewrite DatasetFromString_matching.
    unfold versionMap_entries in Hperm.
    assert (Hlook : ∀ u, versionMap_lookup dsets u
                         = default ∅ (versionMap dsets) !! u).
    { intros u. unfold versionMap_lookup.
      by destruct (versionMap dsets). }
    setoid_rewrite Hlook.
    set (m := default ∅ (versionMap dsets)) in *.
    split; [|split].
    + intros u p Hu Hpre Huniq.
      by rewrite (matching_unique str m visit u p).
    + intros Hnone. by rewrite (matching_none str m visit).
    + intros u1 u2 Hne H1 H2 Hp1 Hp2.
      by destruct (matching_several str m visit u1 u2)
        as (e1 & e2 & l & ->).
Qed.

Lemma three_uuid_dag_entries (u : UUID) :
  is_Some (Versioning.VersionMap three_uuid_dag !! u) →
  u = "3fa22" ∨ u = "7cd11" ∨ u = "3fa77".
Proof.
  intros [id Hu]. unfold three_uuid_dag in Hu. cbn in Hu.
  repeat (apply lookup_insert_Some in Hu as [[<- _]|[_ Hu]]; [tauto|]).
  by rewrite lookup_empty in Hu.
Qed.

(** The prefix ["7cd"] resolves to local id 1, ["3fa"] is ambiguous and
    ["836"] is not found. *)
Lemma prefix_resolution_witness :
  Versioning.VersionIdFromString three_uuid_dag "7cd" = (1, None) ∧
  Versioning.VersionIdFromString three_uuid_dag "836"
  = (0, Some (errNoPartialMatch "836")) ∧
  Versioning.VersionIdFromString three_uuid_dag "3fa"
  = (0, Some (errMoreThanOneMatch "3fa")).
Proof.
  unfold Versioning.VersionIdFromString. split; [|split].
  - destruct (prefix_resolution "7cd") as [Hdag _].
    destruct (Hdag three_uuid_dag _ (reflexivity _)) as (Hone & _ & _).
    apply (Hone "7cd11" 1); [reflexivity|reflexivity|].
    intros u' [-> | [-> | ->]]%three_uuid_dag_entries;
      [discriminate|done|discriminate].
  - destruct (prefix_resolution "836") as [Hdag _].
    destruct (Hdag three_uuid_dag _ (reflexivity _)) as (_ & Hnone & _).
    apply Hnone.
    intros u' [-> | [-> | ->]]%three_uuid_dag_entries; reflexivity.
  - destruct (prefix_resolution "3fa") as [Hdag _].
    destruct (Hdag three_uuid_dag _ (reflexivity _)) as (_ & _ & Htwo).
    apply (Htwo "3fa22" "3fa77");
      [discriminate|by eexists..|reflexivity|reflexivity].
Defined.

(** C10.  When two or more UUIDs of the registry index start with [str],
    [DatasetFromString] returns the Ambiguous error together with a
    non-nil dataset and a UUID: those of the matching entry the loop
    visited last.  The values are not cleared on that path. *)
Theorem DatasetFromString_ambiguous_keeps_last_match (str : string)
    (dsets : Datasets) (visit : list (UUID * ptr)) (u1 u2 : UUID) :
  visit ≡ₚ versionMap_entries dsets →
  u1 ≠ u2 →
  is_Some (versionMap_lookup dsets u1) →
  is_Some (versionMap_lookup dsets u2) →
  HasPrefix u1 str = true → HasPrefix u2 str = true →
  ∃ u p,
    DatasetFromString_visiting visit str
    = (Some p, u, Some (errMoreThanOneMatch str)) ∧
    last (matching str visit) = Some (u, p) ∧
    versionMap_lookup dsets u = Some p ∧
    HasPrefix u str = true.
Proof.
  intros Hperm Hne H1 H2 Hp1 Hp2.
  unfold versionMap_entries in Hperm.
  assert (Hlook : ∀ u, versionMap_lookup dsets u
                       = default ∅ (versionMap dsets) !! u).
  { intros u. unfold versionMap_lookup. by destruct (versionMap dsets). }
  rewrite Hlook in H1, H2. setoid_rewrite Hlook.
  rewrite DatasetFromString_matching.
  pose proof (last_matching str (default ∅ (versionMap dsets)) visit) as Hl.
  destruct (matching_several str _ visit u1 u2 Hperm Hne H1 H2 Hp1 Hp2)
    as (e1 & e2 & l & Hm).
  rewrite Hm in Hl |- *. rewrite (last_cons e1 (e2 :: l)) in Hl |- *.
  destruct (last (e2 :: l)) as [[u p]|] eqn:Hlast.
  - exists u, p. cbn. split; [done|]. split; [done|]. by apply Hl.
  - by apply last_None in Hlast.
Qed.

Lemma DatasetFromString_ambiguous_keeps_last_match_witness :
  (versionMap_entries three_uuid_index ≡ₚ versionMap_entries three_uuid_index ∧
   "3fa22" ≠ "3fa77" ∧
   is_Some (versionMap_lookup three_uuid_index "3fa22") ∧
   is_Some (versionMap_lookup three_uuid_index "3fa77") ∧
   HasPrefix "3fa22" "3fa" = true ∧ HasPrefix "3fa77" "3fa" = true) ∧
  ∃ u p,
    DatasetFromString three_uuid_index "3fa"
    = (Some p, u, Some (errMoreThanOneMatch "3fa")) ∧
    versionMap_lookup three_uuid_index u = Some p ∧
    HasPrefix u "3fa" = true.
Proof.
  assert (H1 : is_Some (versionMap_lookup three_uuid_index "3fa22"))
    by (exists 0%nat; vm_compute; reflexivity).
  assert (H2 : is_Some (versionMap_lookup three_uuid_index "3fa77"))
    by (exists 0%nat; vm_compute; reflexivity).
  assert (Hne : "3fa22" ≠ "3fa77") by discriminate.
  assert (Hperm : versionMap_entries three_uuid_index
                  ≡ₚ versionMap_entries three_uuid_index) by reflexivity.
  split.
  { split; [exact Hperm|]. split; [exact Hne|]. split; [exact H1|].
    split; [exact H2|]. split; reflexivity. }
  destruct (DatasetFromString_ambiguous_keeps_last_match "3fa"
              three_uuid_index _ "3fa22" "3fa77" Hperm Hne H1 H2
              eq_refl eq_refl) as (u & p & Hres & _ & Hu & Hpre).
  exists u, p. split; [exact Hres|]. split; [exact Hu|exact Hpre].
Defined.

(** ** Persistence *)

(** The index built by assigning [p] to every UUID of a list. *)
Lemma index_list_lookup (p : ptr) (us : list UUID) : ∀ (vm : gmap UUID ptr) u,
  foldl (λ vm u, <[u := p]> vm) vm us !! u
  = if decide (u ∈ us) then Some p else vm !! u.
Proof.
  induction us as [|u0 us IH]; intros vm u; cbn [foldl].
  - rewrite decide_False; [done|]. apply not_elem_of_nil.
  - rewrite IH. destruct (decide (u ∈ us)) as [Hin|Hnotin].
    + rewrite decide_True; [done|]. by right.
    + destruct (decide (u = u0)) as [->|Hne].
      * rewrite lookup_insert_eq, decide_True; [done|]. left.
      * rewrite lookup_insert_ne by done.
        rewrite decide_False; [done|].
        intros [?|?]%elem_of_cons; done.
Qed.

(** The result does not depend on the order in which [Versions] lists
    the UUIDs. *)
Lemma index_list_perm (p : ptr) (us us' : list UUID) (vm : gmap UUID ptr) :
  us ≡ₚ us' →
  foldl (λ vm u, <[u := p]> vm) vm us = foldl (λ vm u, <[u := p]> vm) vm us'.
Proof.
  intros Hperm. apply map_eq. intros u. rewrite !index_list_lookup.
  destruct (decide (u ∈ us)) as [Hin|Hnotin].
  - rewrite decide_True; [done|]. by rewrite <- Hperm.
  - rewrite decide_False; [done|]. by rewrite <- Hperm.
Qed.

Lemma elem_of_Versions (dag : VersionDAG) (u : UUID) :
  u ∈ Versions dag ↔ is_Some (Nodes dag !! u).
Proof.
  unfold Versions. rewrite list_elem_of_fmap. split.
  - intros ([u' node] & -> & Hin). apply elem_of_map_to_list in Hin. eauto.
  - intros [node Hnode]. exists (u, node). split; [done|].
    by apply elem_of_map_to_list.
Qed.

Section persistence.

Context {DataService : Type}.
Implicit Types (mem : Store DataService) (dsets : Datasets).
Implicit Types (dset : Dataset DataService) (p q : ptr) (ps : list ptr).

Lemma index_versions_lookup (vm : gmap UUID ptr) p dset u :
  index_versions vm p dset !! u
  = if decide (u ∈ Versions (Dataset_dag dset)) then Some p else vm !! u.
Proof. apply index_list_lookup. Qed.

(** Every entry of the rebuilt index names a Dataset of the sequence
    that holds the UUID. *)
Lemma rebuild_from_sound mem ps u q : ∀ vm,
  rebuild_from mem vm ps !! u = Some q →
  vm !! u = Some q ∨
  (q ∈ ps ∧ ∃ dset, mem !! q = Some dset ∧ u ∈ Versions (Dataset_dag dset)).
Proof.
  induction ps as [|p ps IH]; intros vm; cbn; [by left|].
  intros [Hvm|(Hin & dset & Hq & Hu)]%IH.
  - destruct (mem !! p) as [dset|] eqn:Hp; [|by left].
    rewrite index_versions_lookup in Hvm.
    destruct (decide (u ∈ Versions (Dataset_dag dset))); [|by left].
    injection Hvm as <-. right. split; [left|eauto].
  - right. split; [by right|eauto].
Qed.

(** Every UUID of every Dataset of the sequence is indexed. *)
Lemma rebuild_from_complete mem ps u : ∀ vm,
  is_Some (vm !! u) ∨
  (∃ p dset, p ∈ ps ∧ mem !! p = Some dset ∧
             u ∈ Versions (Dataset_dag dset)) →
  is_Some (rebuild_from mem vm ps !! u).
Proof.
  induction ps as [|p0 ps IH]; intros vm Hcase; cbn.
  - destruct Hcase as [?|(p & dset & Hin & _)]; [done|].
    by apply elem_of_nil in Hin.
  - apply IH. destruct (mem !! p0) as [dset0|] eqn:Hp0.
    + rewrite index_versions_lookup.
      destruct (decide (u ∈ Versions (Dataset_dag dset0))) as [Hu|Hu];
        [left; eauto|].
      destruct Hcase as [?|(p & dset & Hin & Hp & Hup)]; [by left|].
      apply elem_of_cons in Hin as [->|Hin]; [congruence|].
      right. eauto.
    + destruct Hcase as [?|(p & dset & Hin & Hp & Hup)]; [by left|].
      apply elem_of_cons in Hin as [->|Hin]; [congruence|].
      right. eauto.
Qed.

(** Following the pointers [alloc_all] returns gives the objects back. *)
Lemma alloc_all_deref (ds : list (Dataset DataService)) : ∀ mem,
  mapM (λ p : ptr, (mem ++ ds) !! p) (seq (length mem) (length ds))
  = Some ds.
Proof.
  induction ds as [|d ds IH]; intros mem; [done|].
  cbn [length seq mapM].
  unfold Store, ptr in *.
  rewrite lookup_app_r, Nat.sub_diag by lia. cbn [lookup list_lookup mbind option_bind].
  specialize (IH (mem ++ [d])).
  rewrite length_app, Nat.add_1_r, <- app_assoc in IH. cbn [app length] in IH.
  by rewrite IH.
Qed.

Lemma export_import (ws : list DatasetWire) :
  Dataset_export <$> (Dataset_import (DataService := DataService) <$> ws)
  = ws.
Proof.
  rewrite <- list_fmap_compose. rewrite <- (list_fmap_id ws) at 2.
  apply list_fmap_ext. intros i w _. by destruct w.
Qed.

End persistence.

(** C6.  Round trip.  Take a registry whose serialization succeeds with
    bytes [s], and a codec that decodes [s] to the exported fields it
    encoded them from.  Then [Deserialize], on any receiving registry,
    returns no error and leaves a registry with the same exported
    contents (the same ordered sequence of Datasets, each with the same
    DAG: root, node map, counters, and the same dataset-id counter) and a
    rebuilt UUID index: every UUID of every Dataset's [Versions()] is
    mapped to a Dataset of the sequence that holds it (the Dataset
    itself, when no other holds the UUID), and the index has no other
    entries.  Registries with a locked, branched node are a special
    case. *)
Theorem Serialize_Deserialize_roundtrip {DataService : Type}
    (dvid_Serialize : DatasetsWire → bytes * option error)
    (dvid_Deserialize : bytes → DatasetsWire → DatasetsWire * option error)
    (mem : Store DataService) (dsets : Datasets) (w : DatasetsWire)
    (s : bytes) (mem0 : Store DataService) (dsets0 : Datasets) :
  Datasets_export mem dsets = Some w →
  Serialize dvid_Serialize (mem, dsets) = Some (s, None) →
  (dvid_Serialize w = (s, None) →
   dvid_Deserialize s (mkDatasetsWire [] (NewDatasetID dsets0)) = (w, None)) →
  ∃ mem1 dsets1,
    Deserialize dvid_Deserialize (mem0, dsets0) s = ((mem1, dsets1), None) ∧
    Datasets_export mem1 dsets1 = Datasets_export mem dsets ∧
    (∀ p dset u,
       p ∈ Datasets_list dsets1 → mem1 !! p = Some dset →
       u ∈ Versions (Dataset_dag dset) →
       ∃ q, versionMap_lookup dsets1 u = Some q ∧
            ((∀ q' dset', q' ∈ Datasets_list dsets1 →
                          mem1 !! q' = Some dset' →
                          u ∈ Versions (Dataset_dag dset') → q' = p) →
             q = p)) ∧
    (∀ u q,
       versionMap_lookup dsets1 u = Some q →
       q ∈ Datasets_list dsets1 ∧
       ∃ dset, mem1 !! q = Some dset ∧ u ∈ Versions (Dataset_dag dset)).
Proof.
  intros Hexp Hser Hcodec.
  assert (Hdec : dvid_Deserialize s (mkDatasetsWire [] (NewDatasetID dsets0))
                 = (w, None)).
  { apply Hcodec. unfold Serialize in Hser. cbn [fst snd] in Hser.
    rewrite Hexp in Hser. by injection Hser. }
  set (ds := Dataset_import (DataService := DataService) <$> wire_Datasets w).
  set (ps := seq (length mem0) (length ds)).
  exists (mem0 ++ ds),
         (mkDatasets ps (wire_NewDatasetID w)
            (Some (rebuild_versionMap (mem0 ++ ds) ps))).
  split; [unfold Deserialize; by rewrite Hdec|].
  assert (Hsound : ∀ u q,
            rebuild_versionMap (mem0 ++ ds) ps !! u = Some q →
            q ∈ ps ∧ ∃ dset, (mem0 ++ ds) !! q = Some dset ∧
                             u ∈ Versions (Dataset_dag dset)).
  { intros u q [Hempty|Hfound]%rebuild_from_sound; [|done].
    by rewrite lookup_empty in Hempty. }
  split; [|split].
  - rewrite Hexp. unfold Datasets_export. cbn [Datasets_list NewDatasetID].
    pose proof (alloc_all_deref ds mem0) as Hall.
    unfold ps, Store, ptr in *. rewrite Hall. cbn. unfold ds.
    rewrite export_import. by destruct w.
  - intros p dset u Hp Hdset Hu. cbn [Datasets_list] in Hp.
    unfold versionMap_lookup. cbn.
    destruct (rebuild_from_complete (mem0 ++ ds) ps u ∅) as [q Hq];
      [right; eauto|].
    exists q. split; [exact Hq|].
    intros Huniq. destruct (Hsound u q Hq) as (Hin & dset' & Hdset' & Hu').
    by apply (Huniq q dset').
  - intros u q. unfold versionMap_lookup. cbn. apply Hsound.
Qed.

(** The round trip of a registry with one Dataset whose root is locked
    and has a child, into an empty registry. *)
Lemma Serialize_Deserialize_roundtrip_witness :
  (Datasets_export branched_registry.1 branched_registry.2
   = Some branched_wire ∧
   Serialize codebook_Serialize branched_registry = Some ([Byte.x01], None) ∧
   (codebook_Serialize branched_wire = ([Byte.x01], None) →
    codebook_Deserialize [Byte.x01]
      (mkDatasetsWire [] (NewDatasetID empty_registry.2))
    = (branched_wire, None))) ∧
  ∃ mem1 dsets1,
    Deserialize codebook_Deserialize empty_registry [Byte.x01]
    = ((mem1, dsets1), None) ∧
    Datasets_export mem1 dsets1
    = Datasets_export branched_registry.1 branched_registry.2 ∧
    versionMap_lookup dsets1 (uuid_of 0) = Some 0%nat ∧
    versionMap_lookup dsets1 (uuid_of 1) = Some 0%nat.
Proof.
  assert (Hexp : Datasets_export branched_registry.1 branched_registry.2
                 = Some branched_wire) by (vm_compute; reflexivity).
  assert (Hser : Serialize codebook_Serialize
                   (branched_registry.1, branched_registry.2)
                 = Some ([Byte.x01], None)) by (vm_compute; reflexivity).
  assert (Hdec : codebook_Serialize branched_wire = ([Byte.x01], None) →
                 codebook_Deserialize [Byte.x01]
                   (mkDatasetsWire [] (NewDatasetID empty_registry.2))
                 = (branched_wire, None)) by (intros _; reflexivity).
  split; [split; [exact Hexp|split; [vm_compute; reflexivity|exact Hdec]]|].
  destruct (Serialize_Deserialize_roundtrip codebook_Serialize
              codebook_Deserialize branched_registry.1 branched_registry.2
              branched_wire [Byte.x01] empty_registry.1 empty_registry.2
              Hexp Hser Hdec) as (mem1 & dsets1 & Hres & Hsame & Hidx & _).
  exists mem1, dsets1. split; [exact Hres|]. split; [exact Hsame|].
  injection Hres as <- <-.
  split; vm_compute; reflexivity.
Defined.

(** C9 (amended).  What a failed load leaves behind.  When [db.Get]
    fails, [Get] returns the registry as it was.  When [Deserialize]
    fails, the UUID index and the Dataset objects that existed are as
    they were, but the [Datasets] sequence is not kept: it was emptied
    before decoding and holds what the codec left in the emptied
    registry, newly allocated objects only, and nothing at all when the
    codec fails closed. *)
Theorem failed_load_effects {DataService : Type}
    (dvid_Deserialize : bytes → DatasetsWire → DatasetsWire * option error)
    (mem : Store DataService) (dsets : Datasets) :
  (∀ data e,
     Get dvid_Deserialize (mem, dsets) (data, Some e)
     = ((mem, dsets), Some e)) ∧
  (∀ data, Get dvid_Deserialize (mem, dsets) (data, None)
           = Deserialize dvid_Deserialize (mem, dsets) data) ∧
  (∀ s mem1 dsets1 e,
     Deserialize dvid_Deserialize (mem, dsets) s = ((mem1, dsets1), Some e) →
     versionMap dsets1 = versionMap dsets ∧
     mem `prefix_of` mem1 ∧
     (∀ p, p ∈ Datasets_list dsets1 → (length mem <= p)%nat) ∧
     ∃ left cause,
       dvid_Deserialize s (mkDatasetsWire [] (NewDatasetID dsets))
       = (left, Some cause) ∧
       e = errDeserializing cause ∧
       Datasets_export mem1 dsets1 = Some left ∧
       (left = mkDatasetsWire [] (NewDatasetID dsets) →
        Datasets_list dsets1 = [] ∧ NewDatasetID dsets1 = NewDatasetID dsets)).
Proof.
  split; [done|]. split; [done|].
  intros s mem1 dsets1 e. unfold Deserialize.
  destruct (dvid_Deserialize s _) as [left [cause|]] eqn:Hdec;
    [|discriminate].
  intros [= <- <- <-]. cbn [versionMap Datasets_list NewDatasetID].
  split; [done|]. split; [by apply prefix_app_r|].
  split; [intros p Hp%elem_of_seq; lia|].
  exists left, cause. split; [done|]. split; [done|]. split.
  - unfold Datasets_export. cbn [Datasets_list NewDatasetID].
    pose proof (alloc_all_deref
                  (Dataset_import (DataService := DataService)
                     <$> wire_Datasets left) mem) as Hall.
    unfold Store, ptr in *. rewrite Hall. cbn. rewrite export_import.
    by destruct left.
  - by intros ->.
Qed.

(** Loading the empty byte string into [branched_registry] fails. *)
Lemma failed_load_effects_witness :
  Deserialize codebook_Deserialize branched_registry []
  = ((branched_registry.1,
      mkDatasets [] (NewDatasetID branched_registry.2)
        (versionMap branched_registry.2)),
     Some (errDeserializing "checksum mismatch")) ∧
  versionMap
    (mkDatasets [] (NewDatasetID branched_registry.2)
       (versionMap branched_registry.2))
  = versionMap branched_registry.2.
Proof.
  assert (Hfail :
    Deserialize codebook_Deserialize
      (branched_registry.1, branched_registry.2) []
    = ((branched_registry.1,
        mkDatasets [] (NewDatasetID branched_registry.2)
          (versionMap branched_registry.2)),
       Some (errDeserializing "checksum mismatch")))
    by (vm_compute; reflexivity).
  split; [vm_compute; reflexivity|].
  destruct (failed_load_effects codebook_Deserialize
              branched_registry.1 branched_registry.2) as (_ & _ & Hdes).
  exact (proj1 (Hdes _ _ _ _ Hfail)).
Defined.

(** C9, as stated, fails: after a failed [Deserialize] the [Datasets]
    sequence is not the one before the call.  Here the codec fails
    closed on the empty byte string; the registry had one Dataset and is
    left with none, while its index still names the old one. *)
Lemma failed_load_loses_Datasets :
  ∃ mem1 dsets1 e,
    Deserialize codebook_Deserialize branched_registry []
    = ((mem1, dsets1), Some e) ∧
    Datasets_list branched_registry.2 = [0%nat] ∧
    Datasets_list dsets1 = [] ∧
    Datasets_list dsets1 ≠ Datasets_list branched_registry.2 ∧
    versionMap_lookup dsets1 (uuid_of 0) = Some 0%nat.
Proof.
  eexists _, _, _. split; [vm_compute; reflexivity|].
  split; [vm_compute; reflexivity|].
  split; [reflexivity|].
  split; [vm_compute; discriminate|].
  vm_compute. reflexivity.
Qed.

(** * Further properties *)

(** ** [Lock] and [newChild] on a version DAG *)

Lemma Lock_found (dag : VersionDAG) (u : UUID) (node : Node) :
  Nodes dag !! u = Some node →
  Lock dag u
  = (mkVersionDAG (Root dag) (<[u := lock_node node]> (Nodes dag))
       (VersionMap dag) (NewVersionID dag) (NewDataID dag), None).
Proof. intros H. unfold Lock. by rewrite H. Qed.

Lemma Lock_absent (dag : VersionDAG) (u : UUID) :
  Nodes dag !! u = None → Lock dag u = (dag, Some (errNoNodeFound u)).
Proof. intros H. unfold Lock. by rewrite H. Qed.

(** X1.  Locking a node makes it branchable: after [Lock(u)] on a node of
    the DAG, [newChild(u)] returns the minted UUID and no error.  The
    child is stored unlocked, without children, stamped [t], with the
    local id the counter held, and the counter advances; unless the
    minted UUID is [u] itself, the parent is still locked, has the child
    appended to its [Children] and [t] as its [Updated] time. *)
Theorem Lock_then_newChild (LocalID : IntType) (fresh : UUID) (t : Time)
    (dag : VersionDAG) (u : UUID) (node : Node) :
  Nodes dag !! u = Some node →
  (Lock dag u).2 = None ∧
  ∃ dag2 child,
    VersionDAG_newChild LocalID fresh t (Lock dag u).1 u
    = (dag2, (fresh, None)) ∧
    Nodes dag2 !! fresh = Some child ∧
    GlobalID (Node_version child) = fresh ∧
    VersionID (Node_version child) = NewVersionID dag ∧
    Locked (Node_version child) = false ∧
    Children (Node_version child) = [] ∧
    Created (Node_version child) = t ∧
    Updated (Node_version child) = t ∧
    NewVersionID dag2 = incr LocalID (NewVersionID dag) ∧
    (fresh ≠ u →
     ∃ parent,
       Nodes dag2 !! u = Some parent ∧
       Locked (Node_version parent) = true ∧
       Children (Node_version parent)
       = Children (Node_version node) ++ [fresh] ∧
       Updated (Node_version parent) = t ∧
       Created (Node_version parent) = Created (Node_version node) ∧
       VersionID (Node_version parent) = VersionID (Node_version node)).
Proof.
  intros Hu. rewrite (Lock_found dag u node Hu). cbn [fst snd].
  split; [done|].
  erewrite newChild_locked;
    [|cbn [Nodes]; apply lookup_insert_eq|reflexivity].
  eexists _, _. split; [reflexivity|]. cbn [Nodes NewVersionID].
  rewrite lookup_insert_eq. repeat (split; [reflexivity|]).
  intros Hne. rewrite lookup_insert_ne, lookup_insert_eq by done.
  eexists. by split.
Qed.

Lemma Lock_then_newChild_witness :
  Nodes (NewVersionDAG (uuid_of 0) 0) !! uuid_of 0 = Some fresh_root_node ∧
  (Lock (NewVersionDAG (uuid_of 0) 0) (uuid_of 0)).2 = None ∧
  ∃ dag2,
    VersionDAG_newChild uint16 (uuid_of 1) 1
      (Lock (NewVersionDAG (uuid_of 0) 0) (uuid_of 0)).1 (uuid_of 0)
    = (dag2, (uuid_of 1, None)) ∧
    NewVersionID dag2 = 2.
Proof.
  assert (Hroot : Nodes (NewVersionDAG (uuid_of 0) 0) !! uuid_of 0
                  = Some fresh_root_node) by (vm_compute; reflexivity).
  destruct (Lock_then_newChild uint16 (uuid_of 1) 1 _ _ _ Hroot)
    as (Hlock & dag2 & child & Hcall & _ & _ & _ & _ & _ & _ & _ & Hnew & _).
  split; [exact Hroot|]. split; [exact Hlock|].
  exists dag2. split; [exact Hcall|]. rewrite Hnew. reflexivity.
Defined.

(** X2.  [Lock] touches one flag.  On a UUID that is not a node it
    returns the NotFound error and the DAG as it was.  On a node it
    returns no error, sets [Locked] on that node and changes nothing
    else: the node's other fields, every other node, the root, the
    UUID-to-id map and both counters are as before; locking again
    changes nothing at all. *)
Theorem Lock_sets_one_flag (dag : VersionDAG) (u : UUID) :
  (Nodes dag !! u = None → Lock dag u = (dag, Some (errNoNodeFound u))) ∧
  (∀ node,
     Nodes dag !! u = Some node →
     (Lock dag u).2 = None ∧
     (∃ node',
        Nodes (Lock dag u).1 !! u = Some node' ∧
        Locked (Node_version node') = true ∧
        GlobalID (Node_version node') = GlobalID (Node_version node) ∧
        VersionID (Node_version node') = VersionID (Node_version node) ∧
        Parents (Node_version node') = Parents (Node_version node) ∧
        Children (Node_version node') = Children (Node_version node) ∧
        Created (Node_version node') = Created (Node_version node) ∧
        Updated (Node_version node') = Updated (Node_version node) ∧
        Node_text node' = Node_text node ∧ Avail node' = Avail node) ∧
     (∀ v, v ≠ u → Nodes (Lock dag u).1 !! v = Nodes dag !! v) ∧
     Root (Lock dag u).1 = Root dag ∧
     VersionMap (Lock dag u).1 = VersionMap dag ∧
     NewVersionID (Lock dag u).1 = NewVersionID dag ∧
     NewDataID (Lock dag u).1 = NewDataID dag ∧
     Lock (Lock dag u).1 u = ((Lock dag u).1, None)).
Proof.
  split; [apply Lock_absent|].
  intros node Hu. rewrite (Lock_found dag u node Hu). cbn [fst snd].
  split; [done|]. split.
  { exists (lock_node node). cbn [Nodes]. rewrite lookup_insert_eq.
    by repeat split. }
  split; [intros v Hv; cbn [Nodes]; by rewrite lookup_insert_ne|].
  repeat (split; [reflexivity|]).
  erewrite Lock_found by (cbn [Nodes]; apply lookup_insert_eq).
  cbn [Root Nodes VersionMap NewVersionID NewDataID].
  by rewrite insert_insert_eq.
Qed.

Lemma Lock_sets_one_flag_witness :
  Nodes (NewVersionDAG (uuid_of 0) 0) !! uuid_of 7 = None ∧
  Lock (NewVersionDAG (uuid_of 0) 0) (uuid_of 7)
  = (NewVersionDAG (uuid_of 0) 0, Some (errNoNodeFound (uuid_of 7))) ∧
  Nodes (NewVersionDAG (uuid_of 0) 0) !! uuid_of 0 = Some fresh_root_node ∧
  Lock locked_root_dag (uuid_of 0) = (locked_root_dag, None).
Proof.
  assert (Habsent : Nodes (NewVersionDAG (uuid_of 0) 0) !! uuid_of 7 = None)
    by (vm_compute; reflexivity).
  assert (Hroot : Nodes (NewVersionDAG (uuid_of 0) 0) !! uuid_of 0
                  = Some fresh_root_node) by (vm_compute; reflexivity).
  destruct (Lock_sets_one_flag (NewVersionDAG (uuid_of 0) 0) (uuid_of 7))
    as [Hnone _].
  destruct (Lock_sets_one_flag (NewVersionDAG (uuid_of 0) 0) (uuid_of 0))
    as [_ Hsome].
  split; [exact Habsent|]. split; [exact (Hnone Habsent)|].
  split; [exact Hroot|].
  exact (proj2 (proj2 (proj2 (proj2 (proj2 (proj2 (proj2
           (Hsome _ Hroot)))))))).
Defined.

(** X3.  A child cannot be branched before it is locked: on the DAG a
    successful [newChild] returns, [newChild] on the new UUID fails with
    the NotLocked error and changes nothing, whatever UUID and time the
    second call would have used. *)
Theorem newChild_child_needs_lock (LocalID : IntType) (fresh : UUID)
    (t : Time) (dag : VersionDAG) (parent : UUID) dag1 u
    (fresh' : UUID) (t' : Time) :
  VersionDAG_newChild LocalID fresh t dag parent = (dag1, (u, None)) →
  VersionDAG_newChild LocalID fresh' t' dag1 u
  = (dag1, ("", Some (errUnlockedParent u))).
Proof.
  intros Hcall.
  destruct (newChild_success_inv _ _ _ _ _ _ _ Hcall)
    as (node & _ & _ & -> & Heq).
  rewrite Heq in Hcall. injection Hcall as <-.
  eapply newChild_unlocked; [cbn [Nodes]; apply lookup_insert_eq|done].
Qed.

Lemma newChild_child_needs_lock_witness :
  VersionDAG_newChild uint16 (uuid_of 1) 1 locked_root_dag (uuid_of 0)
  = (one_child_dag, (uuid_of 1, None)) ∧
  VersionDAG_newChild uint16 (uuid_of 2) 2 one_child_dag (uuid_of 1)
  = (one_child_dag, ("", Some (errUnlockedParent (uuid_of 1)))).
Proof.
  assert (Hcall :
    VersionDAG_newChild uint16 (uuid_of 1) 1 locked_root_dag (uuid_of 0)
    = (one_child_dag, (uuid_of 1, None))) by reflexivity.
  split; [exact Hcall|].
  exact (newChild_child_needs_lock uint16 _ _ _ _ _ _ (uuid_of 2) 2 Hcall).
Defined.

(** ** Invariants of the histories of a DAG *)

Lemma run_ops_cons (LocalID : IntType) (dag : VersionDAG) (op : DagOp)
    (ops : list DagOp) :
  (run_ops LocalID dag (op :: ops)).1
  = (run_ops LocalID (apply_op LocalID dag op).1 ops).1.
Proof.
  cbn [run_ops]. destruct (apply_op LocalID dag op) as [dag1 id].
  cbn [fst]. by destruct (run_ops LocalID dag1 ops).
Qed.

(** A property that every operation preserves holds along a history. *)
Lemma run_ops_ind (LocalID : IntType) (P : VersionDAG → Prop) :
  (∀ dag op, P dag → P (apply_op LocalID dag op).1) →
  ∀ ops dag, P dag → P (run_ops LocalID dag ops).1.
Proof.
  intros Hstep. induction ops as [|op ops IH]; intros dag Hdag; [done|].
  rewrite run_ops_cons. by apply IH, Hstep.
Qed.

(** What an operation does to the nodes. *)
Lemma apply_op_cases (LocalID : IntType) (dag : VersionDAG) (op : DagOp) :
  (apply_op LocalID dag op).1 = dag ∨
  (∃ u node, op = OpLock u ∧ Nodes dag !! u = Some node ∧
     (apply_op LocalID dag op).1
     = mkVersionDAG (Root dag) (<[u := lock_node node]> (Nodes dag))
         (VersionMap dag) (NewVersionID dag) (NewDataID dag)) ∨
  (∃ parent fresh t node,
     op = OpNewChild parent fresh t ∧ Nodes dag !! parent = Some node ∧
     Locked (Node_version node) = true ∧
     (apply_op LocalID dag op).1
     = mkVersionDAG (Root dag)
         (<[fresh := Node_of (mkNodeVersion fresh (NewVersionID dag) false
                                [fresh] [] t t)]>
            (<[parent := add_child node fresh t]> (Nodes dag)))
         (VersionMap dag) (incr LocalID (NewVersionID dag)) (NewDataID dag)).
Proof.
  destruct op as [u|parent fresh t]; cbn [apply_op].
  - destruct (Nodes dag !! u) as [node|] eqn:Hu.
    + right. left. exists u, node. by rewrite (Lock_found dag u node).
    + left. by rewrite Lock_absent.
  - destruct (newChild_cases fresh t dag parent)
      as [H|[(node & H & HL)|(node & H & HL)]].
    + left. by rewrite newChild_absent.
    + left. by rewrite (newChild_unlocked _ _ _ _ _ node).
    + right. right. exists parent, fresh, t, node.
      by rewrite (newChild_locked _ _ _ _ _ node).
Qed.

Lemma NewVersionDAG_shape (root : UUID) (t : Time) :
  DAG_shape (NewVersionDAG root t).
Proof.
  split; [cbn; rewrite lookup_insert_eq; eauto|].
  intros u node. cbn [NewVersionDAG Nodes].
  intros [[<- <-]|[_ Hempty]]%lookup_insert_Some;
    [|by rewrite lookup_empty in Hempty].
  split; [done|]. split; [done|]. cbn. by intros c Hc%elem_of_nil.
Qed.

Lemma apply_op_shape (LocalID : IntType) (dag : VersionDAG) (op : DagOp) :
  DAG_shape dag → DAG_shape (apply_op LocalID dag op).1.
Proof.
  intros [Hroot Hnodes].
  destruct (apply_op_cases LocalID dag op)
    as [->|[(u & node & _ & Hu & ->)
           |(parent & fresh & t & node & _ & Hp & HL & ->)]];
    [done| |].
  - (* Lock *)
    split.
    + cbn [Root Nodes]. destruct (decide (u = Root dag)) as [->|Hne].
      * rewrite lookup_insert_eq. eauto.
      * by rewrite lookup_insert_ne.
    + intros v nodev. cbn [Nodes].
      assert (Hkeys : ∀ c, is_Some (Nodes dag !! c) →
                           is_Some (<[u := lock_node node]> (Nodes dag) !! c)).
      { intros c Hc. destruct (decide (u = c)) as [->|Hne].
        - rewrite lookup_insert_eq. eauto.
        - by rewrite lookup_insert_ne. }
      intros [[<- <-]|[Hne Hv]]%lookup_insert_Some.
      * destruct (Hnodes u node Hu) as (Hid & _ & Hch).
        split; [done|]. split; [done|]. intros c Hc. apply Hkeys. by apply Hch.
      * destruct (Hnodes v nodev Hv) as (Hid & Hunl & Hch).
        split; [done|]. split; [done|]. intros c Hc. apply Hkeys. by apply Hch.
  - (* newChild *)
    set (nodes2 := <[fresh := _]> (<[parent := _]> (Nodes dag))).
    assert (Hkeys : ∀ c, is_Some (Nodes dag !! c) → is_Some (nodes2 !! c)).
    { intros c Hc. unfold nodes2.
      destruct (decide (fresh = c)) as [->|Hne1];
        [rewrite lookup_insert_eq; eauto|].
      rewrite lookup_insert_ne by done.
      destruct (decide (parent = c)) as [->|Hne2];
        [rewrite lookup_insert_eq; eauto|].
      by rewrite lookup_insert_ne. }
    split; [cbn [Root Nodes]; by apply Hkeys|].
    intros v nodev. cbn [Nodes]. unfold nodes2 at 1.
    intros [[<- <-]|[Hne1 Hv]]%lookup_insert_Some.
    + split; [done|]. split; [done|]. cbn. by intros c Hc%elem_of_nil.
    + apply lookup_insert_Some in Hv as [[<- <-]|[Hne2 Hv]].
      * destruct (Hnodes parent node Hp) as (Hid & _ & Hch).
        split; [done|]. split; [cbn; congruence|].
        cbn. intros c [Hc|Hc%list_elem_of_singleton]%elem_of_app.
        -- apply Hkeys. by apply Hch.
        -- subst c. unfold nodes2. rewrite lookup_insert_eq. eauto.
      * destruct (Hnodes v nodev Hv) as (Hid & Hunl & Hch).
        split; [done|]. split; [done|]. intros c Hc. apply Hkeys. by apply Hch.
Qed.

Lemma run_ops_shape (LocalID : IntType) (root : UUID) (t : Time)
    (ops : list DagOp) :
  DAG_shape (run_ops LocalID (NewVersionDAG root t) ops).1.
Proof.
  apply (run_ops_ind LocalID DAG_shape).
  - intros dag op. apply apply_op_shape.
  - apply NewVersionDAG_shape.
Qed.

(** X4.  Lock before branch, as an invariant: in every DAG reached from
    [NewVersionDAG] by [Lock] and [newChild] calls, successful or not, a
    node that is not locked has no children. *)
Theorem unlocked_nodes_have_no_children (LocalID : IntType) (root : UUID)
    (t : Time) (ops : list DagOp) (u : UUID) (node : Node) :
  Nodes (run_ops LocalID (NewVersionDAG root t) ops).1 !! u = Some node →
  Locked (Node_version node) = false →
  Children (Node_version node) = [].
Proof.
  intros Hu. destruct (run_ops_shape LocalID root t ops) as [_ Hnodes].
  by destruct (Hnodes u node Hu) as (_ & Hunl & _).
Qed.

Lemma unlocked_nodes_have_no_children_witness :
  Nodes (run_ops uint16 (NewVersionDAG (uuid_of 0) 0)
           [OpLock (uuid_of 0); OpNewChild (uuid_of 0) (uuid_of 1) 1]).1
    !! uuid_of 1
  = Some (Node_of (mkNodeVersion (uuid_of 1) 1 false [uuid_of 1] [] 1 1)) ∧
  Children (Node_version
              (Node_of (mkNodeVersion (uuid_of 1) 1 false [uuid_of 1] [] 1 1)))
  = [].
Proof.
  assert (Hnode :
    Nodes (run_ops uint16 (NewVersionDAG (uuid_of 0) 0)
             [OpLock (uuid_of 0); OpNewChild (uuid_of 0) (uuid_of 1) 1]).1
      !! uuid_of 1
    = Some (Node_of (mkNodeVersion (uuid_of 1) 1 false [uuid_of 1] [] 1 1)))
    by (vm_compute; reflexivity).
  split; [exact Hnode|].
  exact (unlocked_nodes_have_no_children uint16 _ _ _ _ _ Hnode eq_refl).
Defined.

(** X5.  Structure of every DAG reached from [NewVersionDAG] by [Lock]
    and [newChild] calls: the root is a node, every node is stored
    under its own [GlobalID], and every UUID listed in a node's
    [Children] is a node of the DAG. *)
Theorem reachable_DAG_structure (LocalID : IntType) (root : UUID)
    (t : Time) (ops : list DagOp) :
  let dag := (run_ops LocalID (NewVersionDAG root t) ops).1 in
  Root dag = root ∧
  is_Some (Nodes dag !! root) ∧
  ∀ u node,
    Nodes dag !! u = Some node →
    GlobalID (Node_version node) = u ∧
    ∀ c, c ∈ Children (Node_version node) → is_Some (Nodes dag !! c).
Proof.
  cbn zeta.
  assert (Hroot : Root (run_ops LocalID (NewVersionDAG root t) ops).1 = root).
  { apply (run_ops_ind LocalID (λ dag, Root dag = root)); [|done].
    intros dag op <-.
    destruct (apply_op_cases LocalID dag op)
      as [->|[(u & node & _ & _ & ->)|(p & f & t' & node & _ & _ & _ & ->)]];
      done. }
  destruct (run_ops_shape LocalID root t ops) as [Hin Hnodes].
  rewrite Hroot in Hin. split; [done|]. split; [done|].
  intros u node Hu. destruct (Hnodes u node Hu) as (Hid & _ & Hch). done.
Qed.

Lemma reachable_DAG_structure_witness :
  Nodes one_child_dag !! uuid_of 0
  = Some (add_child (lock_node fresh_root_node) (uuid_of 1) 1) ∧
  one_child_dag
  = (run_ops uint16 (NewVersionDAG (uuid_of 0) 0)
       [OpLock (uuid_of 0); OpNewChild (uuid_of 0) (uuid_of 1) 1]).1 ∧
  is_Some (Nodes one_child_dag !! uuid_of 1).
Proof.
  assert (Hnode : Nodes one_child_dag !! uuid_of 0
                  = Some (add_child (lock_node fresh_root_node) (uuid_of 1) 1))
    by (vm_compute; reflexivity).
  assert (Hrun : one_child_dag
    = (run_ops uint16 (NewVersionDAG (uuid_of 0) 0)
         [OpLock (uuid_of 0); OpNewChild (uuid_of 0) (uuid_of 1) 1]).1)
    by (vm_compute; reflexivity).
  split; [exact Hnode|]. split; [exact Hrun|].
  pose proof (reachable_DAG_structure uint16 (uuid_of 0) 0
                [OpLock (uuid_of 0); OpNewChild (uuid_of 0) (uuid_of 1) 1])
    as (_ & _ & Hnodes).
  rewrite <- Hrun in Hnodes.
  apply (proj2 (Hnodes _ _ Hnode)).
  change (uuid_of 1 ∈ [] ++ [uuid_of 1]). apply elem_of_app. right. left.
Defined.

(** X6.  Nothing is ever removed or renumbered at the DAG level: along
    any history of [Lock] and [newChild] calls, every UUID that is a
    node stays a node, and the root, the UUID-to-id map and [NewDataID]
    keep their values. *)
Theorem history_keeps_nodes (LocalID : IntType) (dag : VersionDAG)
    (ops : list DagOp) :
  let dag' := (run_ops LocalID dag ops).1 in
  (∀ u, is_Some (Nodes dag !! u) → is_Some (Nodes dag' !! u)) ∧
  Root dag' = Root dag ∧
  VersionMap dag' = VersionMap dag ∧
  NewDataID dag' = NewDataID dag.
Proof.
  cbn zeta.
  apply (run_ops_ind LocalID
           (λ dag', (∀ u, is_Some (Nodes dag !! u) → is_Some (Nodes dag' !! u)) ∧
                    Root dag' = Root dag ∧ VersionMap dag' = VersionMap dag ∧
                    NewDataID dag' = NewDataID dag)); [|done].
  intros dag1 op (Hkeys & HR & HV & HD).
  destruct (apply_op_cases LocalID dag1 op)
    as [->|[(u & node & _ & _ & ->)|(p & f & t' & node & _ & _ & _ & ->)]];
    [done| |]; cbn [Root Nodes VersionMap NewDataID];
    (split; [|done]); intros v Hv%Hkeys.
  - destruct (decide (u = v)) as [->|Hne];
      [rewrite lookup_insert_eq; eauto|by rewrite lookup_insert_ne].
  - destruct (decide (f = v)) as [->|Hne1];
      [rewrite lookup_insert_eq; eauto|].
    rewrite lookup_insert_ne by done.
    destruct (decide (p = v)) as [->|Hne2];
      [rewrite lookup_insert_eq; eauto|by rewrite lookup_insert_ne].
Qed.

Lemma history_keeps_nodes_witness :
  is_Some (Nodes locked_root_dag !! uuid_of 0) ∧
  is_Some
    (Nodes (run_ops int16 locked_root_dag (branch_ops (uuid_of 0) 1 3)).1
       !! uuid_of 0).
Proof.
  assert (Hroot : is_Some (Nodes locked_root_dag !! uuid_of 0))
    by (eexists; vm_compute; reflexivity).
  split; [exact Hroot|].
  exact (proj1 (history_keeps_nodes int16 locked_root_dag
                  (branch_ops (uuid_of 0) 1 3)) _ Hroot).
Defined.

(** X7.  Locking is irreversible: along any history in which no
    [newChild] mints the UUID of a locked node again, that node stays a
    locked node. *)
Theorem locked_stays_locked (LocalID : IntType) (ops : list DagOp) :
  ∀ (dag : VersionDAG) (u : UUID) (node : Node),
  Nodes dag !! u = Some node →
  Locked (Node_version node) = true →
  Forall (λ op, minted op ≠ Some u) ops →
  ∃ node',
    Nodes (run_ops LocalID dag ops).1 !! u = Some node' ∧
    Locked (Node_version node') = true.
Proof.
  induction ops as [|op ops IH]; intros dag u node Hu HL Hops; [eauto|].
  apply Forall_cons in Hops as [Hop Hops]. rewrite run_ops_cons.
  assert (∃ node1, Nodes (apply_op LocalID dag op).1 !! u = Some node1 ∧
                   Locked (Node_version node1) = true)
    as (node1 & Hu1 & HL1); [|by eapply IH].
  destruct (apply_op_cases LocalID dag op)
    as [->|[(v & nodev & _ & Hv & ->)
           |(p & f & t' & nodep & -> & Hp & _ & ->)]];
    [eauto| |]; cbn [Nodes].
  - destruct (decide (v = u)) as [->|Hne].
    + rewrite lookup_insert_eq. eauto.
    + rewrite lookup_insert_ne by done. eauto.
  - cbn in Hop. rewrite lookup_insert_ne by congruence.
    destruct (decide (p = u)) as [->|Hne].
    + rewrite lookup_insert_eq. eexists. split; [done|].
      cbn. congruence.
    + rewrite lookup_insert_ne by done. eauto.
Qed.

Lemma locked_stays_locked_witness :
  (Nodes locked_root_dag !! uuid_of 0 = Some (lock_node fresh_root_node) ∧
   Locked (Node_version (lock_node fresh_root_node)) = true ∧
   Forall (λ op, minted op ≠ Some (uuid_of 0))
     [OpNewChild (uuid_of 0) (uuid_of 1) 1; OpLock (uuid_of 1);
      OpNewChild (uuid_of 1) (uuid_of 2) 2]) ∧
  ∃ node',
    Nodes (run_ops uint16 locked_root_dag
             [OpNewChild (uuid_of 0) (uuid_of 1) 1; OpLock (uuid_of 1);
              OpNewChild (uuid_of 1) (uuid_of 2) 2]).1 !! uuid_of 0
    = Some node' ∧
    Locked (Node_version node') = true.
Proof.
  assert (Hroot : Nodes locked_root_dag !! uuid_of 0
                  = Some (lock_node fresh_root_node))
    by (vm_compute; reflexivity).
  assert (Hops : Forall (λ op, minted op ≠ Some (uuid_of 0))
            [OpNewChild (uuid_of 0) (uuid_of 1) 1; OpLock (uuid_of 1);
             OpNewChild (uuid_of 1) (uuid_of 2) 2]).
  { repeat constructor; cbn; try discriminate;
      intros [= H]; vm_compute in H; discriminate H. }
  split; [by repeat split|].
  exact (locked_stays_locked uint16 _ _ _ _ Hroot eq_refl Hops).
Defined.

(** X8.  [newChild] does not check the UUID it mints.  When that UUID is
    already a node other than the parent (as when [NewUUID] fails twice
    and returns the empty UUID both times), the call still succeeds: the
    node stored under the UUID is replaced by the new, unlocked,
    childless node, and [Nodes] does not grow although the counter
    advances. *)
Theorem newChild_replaces_existing_node (LocalID : IntType) (fresh : UUID)
    (t : Time) (dag : VersionDAG) (parent : UUID) (node old : Node) :
  Nodes dag !! parent = Some node →
  Locked (Node_version node) = true →
  Nodes dag !! fresh = Some old →
  fresh ≠ parent →
  ∃ dag',
    VersionDAG_newChild LocalID fresh t dag parent = (dag', (fresh, None)) ∧
    Nodes dag' !! fresh
    = Some (Node_of (mkNodeVersion fresh (NewVersionID dag) false [fresh] []
                       t t)) ∧
    size (Nodes dag') = size (Nodes dag) ∧
    NewVersionID dag' = incr LocalID (NewVersionID dag).
Proof.
  intros Hp HL Hold Hne. rewrite (newChild_locked _ _ _ _ _ node) by done.
  eexists. split; [reflexivity|]. cbn [Nodes NewVersionID].
  rewrite lookup_insert_eq. split; [done|]. split; [|done].
  rewrite map_size_insert_Some
    by (rewrite lookup_insert_ne by done; eauto).
  rewrite map_size_insert_Some by eauto. done.
Qed.

Lemma newChild_replaces_existing_node_witness :
  (Nodes one_child_dag !! uuid_of 0
   = Some (add_child (lock_node fresh_root_node) (uuid_of 1) 1) ∧
   Locked (Node_version (add_child (lock_node fresh_root_node) (uuid_of 1) 1))
   = true ∧
   Nodes one_child_dag !! uuid_of 1
   = Some (Node_of (mkNodeVersion (uuid_of 1) 1 false [uuid_of 1] [] 1 1)) ∧
   uuid_of 1 ≠ uuid_of 0) ∧
  ∃ dag',
    VersionDAG_newChild uint16 (uuid_of 1) 5 one_child_dag (uuid_of 0)
    = (dag', (uuid_of 1, None)) ∧
    size (Nodes dag') = size (Nodes one_child_dag) ∧
    NewVersionID dag' = 3.
Proof.
  assert (Hp : Nodes one_child_dag !! uuid_of 0
               = Some (add_child (lock_node fresh_root_node) (uuid_of 1) 1))
    by (vm_compute; reflexivity).
  assert (Hold : Nodes one_child_dag !! uuid_of 1
            = Some (Node_of (mkNodeVersion (uuid_of 1) 1 false [uuid_of 1] []
                               1 1)))
    by (vm_compute; reflexivity).
  assert (Hne : uuid_of 1 ≠ uuid_of 0) by (vm_compute; discriminate).
  split; [by repeat split|].
  destruct (newChild_replaces_existing_node uint16 (uuid_of 1) 5
              one_child_dag (uuid_of 0) _ _ Hp eq_refl Hold Hne)
    as (dag' & Hcall & _ & Hsize & Hnew).
  exists dag'. split; [exact Hcall|]. split; [exact Hsize|].
  rewrite Hnew. vm_compute. reflexivity.
Defined.

(** X9.  [Versions()] lists every UUID of [Nodes] exactly once, and a
    successful [newChild] adds the minted UUID to the list and removes
    none. *)
Theorem Versions_lists_nodes (LocalID : IntType) (dag : VersionDAG) :
  NoDup (Versions dag) ∧
  length (Versions dag) = size (Nodes dag) ∧
  (∀ u, u ∈ Versions dag ↔ is_Some (Nodes dag !! u)) ∧
  (∀ fresh t parent dag' u,
     VersionDAG_newChild LocalID fresh t dag parent = (dag', (u, None)) →
     ∀ v, v ∈ Versions dag' ↔ v = u ∨ v ∈ Versions dag).
Proof.
  split; [apply NoDup_fst_map_to_list|].
  split; [unfold Versions; by rewrite length_fmap, length_map_to_list|].
  split; [apply elem_of_Versions|].
  intros fresh t parent dag' u Hcall v.
  destruct (newChild_success_inv _ _ _ _ _ _ _ Hcall)
    as (node & Hp & _ & -> & Heq).
  rewrite Heq in Hcall. injection Hcall as <-.
  rewrite !elem_of_Versions. cbn [Nodes].
  destruct (decide (fresh = v)) as [->|Hne1].
  { rewrite lookup_insert_eq. split; eauto. }
  rewrite lookup_insert_ne by done.
  destruct (decide (parent = v)) as [->|Hne2].
  { rewrite lookup_insert_eq, Hp. split; eauto. }
  rewrite lookup_insert_ne by done. split; [eauto|].
  by intros [?|?].
Qed.

Lemma Versions_lists_nodes_witness :
  VersionDAG_newChild uint16 (uuid_of 1) 1 locked_root_dag (uuid_of 0)
  = (one_child_dag, (uuid_of 1, None)) ∧
  uuid_of 1 ∈ Versions one_child_dag ∧
  length (Versions one_child_dag) = 2%nat.
Proof.
  assert (Hcall :
    VersionDAG_newChild uint16 (uuid_of 1) 1 locked_root_dag (uuid_of 0)
    = (one_child_dag, (uuid_of 1, None))) by reflexivity.
  split; [exact Hcall|].
  destruct (Versions_lists_nodes uint16 locked_root_dag)
    as (_ & _ & _ & Hnew).
  destruct (Versions_lists_nodes uint16 one_child_dag)
    as (_ & Hlen & _ & _).
  split; [apply (Hnew _ _ _ _ _ Hcall); by left|].
  rewrite Hlen. vm_compute. reflexivity.
Defined.

(** ** [NewUUID] *)

Lemma hex_digit_code (n : N) :
  (n < 16)%N →
  Ascii.N_of_ascii (hex_digit n) = (if (n <? 10)%N then 48 + n else 87 + n)%N.
Proof.
  intros Hn. unfold hex_digit. apply Ascii.N_ascii_embedding.
  destruct (n <? 10)%N eqn:Hlt; lia.
Qed.

Lemma hex_digit_lower (n : N) :
  (n < 16)%N → is_lower_hex (hex_digit n) = true.
Proof.
  intros Hn. unfold is_lower_hex. cbn zeta. rewrite hex_digit_code by done.
  destruct (n <? 10)%N eqn:Hlt.
  - apply N.ltb_lt in Hlt. apply orb_true_iff. left.
    apply andb_true_iff. split; apply N.leb_le; lia.
  - apply N.ltb_ge in Hlt. apply orb_true_iff. right.
    apply andb_true_iff. split; apply N.leb_le; lia.
Qed.

Lemma hex_digit_inj (m n : N) :
  (m < 16)%N → (n < 16)%N → hex_digit m = hex_digit n → m = n.
Proof.
  intros Hm Hn Heq. apply (f_equal Ascii.N_of_ascii) in Heq.
  rewrite !hex_digit_code in Heq by done.
  destruct (m <? 10)%N eqn:Hm10, (n <? 10)%N eqn:Hn10;
    try apply N.ltb_lt in Hm10; try apply N.ltb_ge in Hm10;
    try apply N.ltb_lt in Hn10; try apply N.ltb_ge in Hn10; lia.
Qed.

Lemma byte_nibbles (b : Byte.byte) :
  (Byte.to_N b / 16 < 16)%N ∧ (Byte.to_N b mod 16 < 16)%N.
Proof.
  pose proof (Byte.to_N_bounded b). split.
  - apply N.Div0.div_lt_upper_bound. lia.
  - apply N.mod_lt. lia.
Qed.

Lemma hex_byte_inj (b1 b2 : Byte.byte) : hex_byte b1 = hex_byte b2 → b1 = b2.
Proof.
  unfold hex_byte. intros [= Hhi Hlo].
  destruct (byte_nibbles b1) as [H1 H1'], (byte_nibbles b2) as [H2 H2'].
  apply hex_digit_inj in Hhi, Hlo; [|done..].
  assert (Heq : Byte.to_N b1 = Byte.to_N b2).
  { rewrite (N.div_mod (Byte.to_N b1) 16), (N.div_mod (Byte.to_N b2) 16)
      by lia. congruence. }
  pose proof (Byte.of_to_N b1) as E1. pose proof (Byte.of_to_N b2) as E2.
  congruence.
Qed.

Lemma hex_bytes_cons (b : Byte.byte) (bs : bytes) :
  hex_bytes (b :: bs)
  = String (hex_digit (Byte.to_N b / 16)%N)
      (String (hex_digit (Byte.to_N b mod 16)%N) (hex_bytes bs)).
Proof. reflexivity. Qed.

Lemma hex_bytes_inj (bs1 : bytes) : ∀ bs2,
  hex_bytes bs1 = hex_bytes bs2 → bs1 = bs2.
Proof.
  induction bs1 as [|b1 bs1 IH]; intros [|b2 bs2]; [done| | |].
  - rewrite hex_bytes_cons. discriminate.
  - rewrite hex_bytes_cons. discriminate.
  - rewrite !hex_bytes_cons. intros [= Hhi Hlo Hrest]. f_equal.
    + apply hex_byte_inj. unfold hex_byte. congruence.
    + by apply IH.
Qed.

Lemma hex_bytes_shape (bs : bytes) :
  String.length (hex_bytes bs) = (2 * length bs)%nat ∧
  all_chars is_lower_hex (hex_bytes bs) = true.
Proof.
  induction bs as [|b bs [IHlen IHall]]; [done|].
  rewrite hex_bytes_cons. destruct (byte_nibbles b) as [Hhi Hlo].
  split.
  - cbn [String.length length]. rewrite IHlen. lia.
  - cbn [all_chars]. by rewrite !hex_digit_lower, IHall.
Qed.

(** X10.  [NewUUID] returns either the empty (invalid) UUID or a string
    of exactly 32 characters, all in [0-9a-f]: the empty one exactly
    when the generator returned nil or a slice that is not sixteen bytes
    long. *)
Theorem NewUUID_shape (u : option bytes) :
  (NewUUID u = "" ↔ u = None ∨ ∃ bs, u = Some bs ∧ length bs ≠ 16%nat) ∧
  (NewUUID u ≠ "" →
   String.length (NewUUID u) = 32%nat ∧
   all_chars is_lower_hex (NewUUID u) = true).
Proof.
  destruct u as [bs|]; cbn [NewUUID].
  - destruct (Nat.eqb (length bs) 16) eqn:Hlen.
    + apply Nat.eqb_eq in Hlen.
      destruct (hex_bytes_shape bs) as [Hl Ha]. rewrite Hlen in Hl.
      split; [|done]. split.
      * intros Hempty. rewrite Hempty in Hl. discriminate.
      * intros [?|(bs' & [= <-] & ?)]; done.
    + apply Nat.eqb_neq in Hlen. split; [|done].
      split; [|done]. intros _. right. eauto.
  - split; [|done]. split; [by left|done].
Qed.

Lemma NewUUID_shape_witness :
  NewUUID (Some (replicate 16 Byte.xab)) ≠ "" ∧
  String.length (NewUUID (Some (replicate 16 Byte.xab))) = 32%nat ∧
  NewUUID (Some (replicate 16 Byte.xab)) = "abababababababababababababababab".
Proof.
  assert (Hne : NewUUID (Some (replicate 16 Byte.xab)) ≠ "")
    by (vm_compute; discriminate).
  split; [exact Hne|].
  split; [exact (proj1 (proj2 (NewUUID_shape _) Hne))|].
  vm_compute. reflexivity.
Defined.

(** X11.  [NewUUID] loses nothing of the sixteen bytes it renders: two
    different sixteen-byte values give two different UUIDs. *)
Theorem NewUUID_injective (bs1 bs2 : bytes) :
  length bs1 = 16%nat → length bs2 = 16%nat →
  NewUUID (Some bs1) = NewUUID (Some bs2) → bs1 = bs2.
Proof.
  intros H1 H2. cbn [NewUUID]. rewrite H1, H2. cbn. apply hex_bytes_inj.
Qed.

Lemma NewUUID_injective_witness :
  length (replicate 16 Byte.x00) = 16%nat ∧
  length (replicate 15 Byte.x00 ++ [Byte.x01]) = 16%nat ∧
  NewUUID (Some (replicate 16 Byte.x00))
  ≠ NewUUID (Some (replicate 15 Byte.x00 ++ [Byte.x01])).
Proof.
  split; [reflexivity|]. split; [reflexivity|].
  intros Heq.
  pose proof (NewUUID_injective (replicate 16 Byte.x00)
                (replicate 15 Byte.x00 ++ [Byte.x01]) eq_refl eq_refl Heq)
    as Hbs.
  vm_compute in Hbs. discriminate Hbs.
Defined.

(** ** More on prefix resolution *)

Lemma HasPrefix_refl (s : string) : HasPrefix s s = true.
Proof.
  unfold HasPrefix. induction s as [|c s IH]; [done|].
  cbn. by destruct (Ascii.ascii_dec c c).
Qed.

Lemma HasPrefix_empty (s : string) : HasPrefix s "" = true.
Proof. unfold HasPrefix. by destruct s. Qed.

Lemma HasPrefix_trans (s : string) : ∀ pre1 pre2,
  HasPrefix pre1 pre2 = true → HasPrefix s pre1 = true →
  HasPrefix s pre2 = true.
Proof.
  unfold HasPrefix.
  induction s as [|c s IH]; intros [|c1 pre1] [|c2 pre2]; cbn; try done.
  destruct (Ascii.ascii_dec c2 c1) as [->|]; [|done].
  destruct (Ascii.ascii_dec c1 c) as [->|]; [|done].
  destruct (Ascii.ascii_dec c c); [|done]. apply IH.
Qed.

Lemma HasPrefix_same_length (s : string) : ∀ pre,
  HasPrefix s pre = true → String.length s = String.length pre → s = pre.
Proof.
  unfold HasPrefix.
  induction s as [|c s IH]; intros [|c' pre]; cbn; try done.
  destruct (Ascii.ascii_dec c' c) as [->|]; [|done].
  intros Hpre [= Hlen]. f_equal. by apply IH.
Qed.

Lemma versionMap_lookup_entries (dsets : Datasets) (u : UUID) :
  versionMap_lookup dsets u = default ∅ (versionMap dsets) !! u.
Proof. unfold versionMap_lookup. by destruct (versionMap dsets). Qed.

(** X12.  A full UUID resolves to itself: in an index whose UUIDs all
    have the length of [u] (as the 32-character UUIDs of [NewUUID] do),
    [DatasetFromString] on the whole string [u] returns the Dataset and
    the UUID that [DatasetFromUUID] finds for [u], with no error,
    whatever the order of the loop. *)
Theorem DatasetFromString_full_UUID (dsets : Datasets)
    (visit : list (UUID * ptr)) (u : UUID) (p : ptr) :
  visit ≡ₚ versionMap_entries dsets →
  versionMap_lookup dsets u = Some p →
  (∀ u', is_Some (versionMap_lookup dsets u') →
         String.length u' = String.length u) →
  DatasetFromString_visiting visit u = (Some p, u, None) ∧
  DatasetFromUUID dsets u = (Some p, None).
Proof.
  intros Hperm Hu Hlen. split; [|unfold DatasetFromUUID; by rewrite Hu].
  rewrite DatasetFromString_matching.
  rewrite (matching_unique u (default ∅ (versionMap dsets)) visit u p);
    [done|done|by rewrite <- versionMap_lookup_entries|apply HasPrefix_refl|].
  intros u' Hu' Hpre. apply HasPrefix_same_length; [done|].
  apply Hlen. by rewrite versionMap_lookup_entries.
Qed.

Lemma three_uuid_index_entries (u : UUID) :
  is_Some (versionMap_lookup three_uuid_index u) →
  u = "3fa22" ∨ u = "7cd11" ∨ u = "3fa77".
Proof.
  intros [p Hu]. unfold three_uuid_index, versionMap_lookup in Hu. cbn in Hu.
  repeat (apply lookup_insert_Some in Hu as [[<- _]|[_ Hu]]; [tauto|]).
  by rewrite lookup_empty in Hu.
Qed.

Lemma DatasetFromString_full_UUID_witness :
  versionMap_lookup three_uuid_index "3fa77" = Some 0%nat ∧
  DatasetFromString three_uuid_index "3fa77" = (Some 0%nat, "3fa77", None).
Proof.
  assert (Hu : versionMap_lookup three_uuid_index "3fa77" = Some 0%nat)
    by (vm_compute; reflexivity).
  split; [exact Hu|].
  refine (proj1 (DatasetFromString_full_UUID three_uuid_index _ "3fa77"
                   0%nat (reflexivity _) Hu _)).
  intros u' [-> | [-> | ->]]%three_uuid_index_entries; reflexivity.
Defined.

(** X13.  No minimum length is enforced: [DatasetFromString] accepts
    the empty string, which every UUID starts with.  On an index with a
    single UUID it returns that entry with no error; on an empty index
    it returns NotFound and on an index with two UUIDs or more,
    Ambiguous. *)
Theorem DatasetFromString_empty_string (dsets : Datasets)
    (visit : list (UUID * ptr)) :
  visit ≡ₚ versionMap_entries dsets →
  (default ∅ (versionMap dsets) = ∅ →
   DatasetFromString_visiting visit ""
   = (None, "", Some (errNoPartialMatch ""))) ∧
  (∀ u p,
     default ∅ (versionMap dsets) = {[u := p]} →
     DatasetFromString_visiting visit "" = (Some p, u, None)) ∧
  ((2 <= size (default ∅ (versionMap dsets)))%nat →
   (DatasetFromString_visiting visit "").2 = Some (errMoreThanOneMatch "")).
Proof.
  intros Hperm. unfold versionMap_entries in Hperm.
  assert (Hall : matching "" visit = visit).
  { unfold matching. induction visit as [|e visit IH] in |- *; [done|].
    rewrite filter_cons_True by apply HasPrefix_empty.
    f_equal. apply IH. }
  rewrite DatasetFromString_matching, Hall.
  split; [|split].
  - intros Hempty. rewrite Hempty, map_to_list_empty in Hperm.
    by apply Permutation_nil_r in Hperm as ->.
  - intros u p Hone. rewrite Hone, map_to_list_singleton in Hperm.
    by apply Permutation_singleton_r in Hperm as ->.
  - intros Hsize. apply Permutation_length in Hperm.
    rewrite length_map_to_list in Hperm.
    destruct visit as [|e1 [|e2 l]]; cbn in Hperm; [lia..|done].
Qed.

Lemma DatasetFromString_empty_string_witness :
  default ∅ (versionMap fresh_registry.2) = {[uuid_of 0 := 0%nat]} ∧
  DatasetFromString fresh_registry.2 "" = (Some 0%nat, uuid_of 0, None).
Proof.
  assert (Hone : default ∅ (versionMap fresh_registry.2)
                 = {[uuid_of 0 := 0%nat]}) by (vm_compute; reflexivity).
  split; [exact Hone|].
  exact (proj1 (proj2 (DatasetFromString_empty_string fresh_registry.2 _
                         (reflexivity _))) _ _ Hone).
Defined.

(** X14.  Lengthening a prefix that resolves keeps the answer: if
    [DatasetFromString] on [str] returns an entry with no error, then on
    any longer string that starts with [str] and is still a prefix of
    the UUID found, it returns the same entry with no error. *)
Theorem DatasetFromString_longer_prefix (dsets : Datasets)
    (visit : list (UUID * ptr)) (str str' : string) (u : UUID) (p : ptr) :
  visit ≡ₚ versionMap_entries dsets →
  DatasetFromString_visiting visit str = (Some p, u, None) →
  HasPrefix str' str = true →
  HasPrefix u str' = true →
  DatasetFromString_visiting visit str' = (Some p, u, None).
Proof.
  intros Hperm Hres Hext Hpre. unfold versionMap_entries in Hperm.
  set (m := default ∅ (versionMap dsets)) in *.
  rewrite DatasetFromString_matching in Hres.
  destruct (matching str visit) as [|[u0 p0] [|e2 l]] eqn:Hm;
    [discriminate| |discriminate].
  injection Hres as -> ->.
  assert (Hin : (u, p) ∈ matching str visit) by (rewrite Hm; left).
  apply (elem_of_matching str m) in Hin as [Hu _]; [|done].
  rewrite DatasetFromString_matching.
  rewrite (matching_unique str' m visit u p); [done..|].
  intros u' [p' Hu'] Hpre'.
  assert (Hin' : (u', p') ∈ matching str visit).
  { apply (elem_of_matching str m); [done|]. split; [done|].
    by apply (HasPrefix_trans u' str' str). }
  rewrite Hm in Hin'. apply list_elem_of_singleton in Hin'. congruence.
Qed.

Lemma DatasetFromString_longer_prefix_witness :
  (DatasetFromString three_uuid_index "7" = (Some 1%nat, "7cd11", None) ∧
   HasPrefix "7cd1" "7" = true ∧ HasPrefix "7cd11" "7cd1" = true) ∧
  DatasetFromString three_uuid_index "7cd1" = (Some 1%nat, "7cd11", None).
Proof.
  assert (Hres : DatasetFromString three_uuid_index "7"
                 = (Some 1%nat, "7cd11", None)) by (vm_compute; reflexivity).
  split; [by repeat split|].
  exact (DatasetFromString_longer_prefix three_uuid_index _ "7" "7cd1"
           "7cd11" 1%nat (reflexivity _) Hres eq_refl eq_refl).
Defined.

(** X15.  On a DAG just returned by [NewVersionDAG] (versioning.go),
    [VersionIdFromString] finds the head, with local id 0, for every
    prefix of the head's UUID, the empty string included, and returns
    NotFound for every other string. *)
Theorem VersionIdFromString_new_DAG (head : UUID) (t : Time) (str : string)
    (visit : list (UUID * Z)) :
  visit ≡ₚ map_to_list
             (Versioning.VersionMap (Versioning.NewVersionDAG head t)) →
  Versioning.VersionIdFromString_visiting visit str
  = if HasPrefix head str then (0, None)
    else (0, Some (errNoPartialMatch str)).
Proof.
  cbn [Versioning.NewVersionDAG Versioning.VersionMap].
  rewrite map_to_list_singleton. intros ->%Permutation_singleton_r.
  rewrite VersionIdFromString_matching.
  destruct (HasPrefix head str) eqn:Hpre.
  - by rewrite matching_cons_true.
  - by rewrite matching_cons_false.
Qed.

Lemma VersionIdFromString_new_DAG_witness :
  Versioning.VersionIdFromString (Versioning.NewVersionDAG "3fa22" 0) "3fa"
  = (0, None) ∧
  Versioning.VersionIdFromString (Versioning.NewVersionDAG "3fa22" 0) "7cd"
  = (0, Some (errNoPartialMatch "7cd")).
Proof.
  split.
  - exact (VersionIdFromString_new_DAG "3fa22" 0 "3fa" _ (reflexivity _)).
  - exact (VersionIdFromString_new_DAG "3fa22" 0 "7cd" _ (reflexivity _)).
Defined.

(** ** Data instances of a Dataset *)

(** X16.  What a successful [NewData] leaves: the type was found, its
    constructor was given the name, the Dataset's current [NewDataID]
    and its [DatasetID], and returned the data service that
    [Dataset.DataService] now finds under the name; every other name
    resolves as before, and the DAG, the alias and the dataset id are
    untouched. *)
Theorem NewData_then_DataService {Config DataService : Type}
    (TypeServiceByName : string → TypeService Config DataService + error)
    (dset : Dataset DataService) (name : DataString) (typeName : string)
    (config : Config) (dset' : Dataset DataService) :
  NewData TypeServiceByName dset name typeName config = (dset', None) →
  ∃ typeService dataservice,
    TypeServiceByName typeName = inl typeService ∧
    typeService
      (mkDataID name (NewDataID (Dataset_dag dset)) (DatasetID dset)) config
    = inl dataservice ∧
    Dataset_DataService dset' name = (Some dataservice, None) ∧
    Dataset_DataService dset name = (None, Some (errCannotFindData name)) ∧
    (∀ name', name' ≠ name →
              Dataset_DataService dset' name' = Dataset_DataService dset name') ∧
    Dataset_dag dset' = Dataset_dag dset ∧
    Alias dset' = Alias dset ∧
    DatasetID dset' = DatasetID dset.
Proof.
  unfold NewData, Dataset_DataService.
  destruct (nameMap_lookup dset name) eqn:Hname; [discriminate|].
  destruct (TypeServiceByName typeName) as [ts|]; [|discriminate].
  destruct (ts _ config) as [ds|] eqn:Hts; [|discriminate].
  intros [= <-]. exists ts, ds. split; [done|]. split; [done|].
  unfold nameMap_lookup. cbn. rewrite lookup_insert_eq.
  split; [done|]. split; [done|]. split; [|done].
  intros name' Hne. rewrite lookup_insert_ne by done.
  by destruct (nameMap dset).
Qed.

Lemma NewData_then_DataService_witness :
  NewData recorder_types fresh_dataset "grayscale" "recorder" ()
  = (one_data_dataset, None) ∧
  Dataset_DataService one_data_dataset "grayscale"
  = (Some (mkDataID "grayscale" 1 0), None).
Proof.
  assert (Hcall : NewData recorder_types fresh_dataset "grayscale" "recorder" ()
                  = (one_data_dataset, None)) by (vm_compute; reflexivity).
  split; [exact Hcall|].
  destruct (NewData_then_DataService _ _ _ _ _ _ Hcall)
    as (ts & ds & Hts & Hds & Hfound & _).
  rewrite Hfound. do 2 f_equal.
  injection Hts as <-. by injection Hds as <-.
Defined.

(** X17.  The ways [NewData] fails on a name that is free: an unknown
    type name gives the UnknownType error built from the type
    registry's error, and an error of the type's constructor is returned
    as it is; and whatever the reason, a call that returns an error
    returns the Dataset as it was. *)
Theorem NewData_failures {Config DataService : Type}
    (TypeServiceByName : string → TypeService Config DataService + error)
    (dset : Dataset DataService) (name : DataString) (typeName : string)
    (config : Config) :
  (∀ cause,
     nameMap_lookup dset name = None →
     TypeServiceByName typeName = inr cause →
     NewData TypeServiceByName dset name typeName config
     = (dset, Some (errNoDataType typeName cause))) ∧
  (∀ typeService cause,
     nameMap_lookup dset name = None →
     TypeServiceByName typeName = inl typeService →
     typeService
       (mkDataID name (NewDataID (Dataset_dag dset)) (DatasetID dset)) config
     = inr cause →
     NewData TypeServiceByName dset name typeName config
     = (dset, Some cause)) ∧
  (∀ dset' e,
     NewData TypeServiceByName dset name typeName config = (dset', Some e) →
     dset' = dset).
Proof.
  split; [|split].
  - intros cause Hname Hts. unfold NewData. by rewrite Hname, Hts.
  - intros ts cause Hname Hts Hcons. unfold NewData.
    by rewrite Hname, Hts, Hcons.
  - intros dset' e. apply NewData_error_unchanged.
Qed.

Lemma NewData_failures_witness :
  (nameMap_lookup fresh_dataset "grayscale" = None ∧
   recorder_types "labelmap" = inr "unknown type labelmap") ∧
  NewData recorder_types fresh_dataset "grayscale" "labelmap" ()
  = (fresh_dataset,
     Some (errNoDataType "labelmap" "unknown type labelmap")).
Proof.
  split; [split; reflexivity|].
  exact (proj1 (NewData_failures recorder_types fresh_dataset "grayscale"
                  "labelmap" ()) _ eq_refl eq_refl).
Defined.

(** ** The registry *)

Section registry_props.

Variables LocalID LocalID32 : IntType.
Variable KeyDataStart : Z.
Context {Config DataService : Type}.
Variable TypeServiceByName : string → TypeService Config DataService + error.
Implicit Types (mem : Store DataService) (dsets : Datasets).
Implicit Types (dset : Dataset DataService) (p q : ptr) (u v : UUID).

Lemma store_insert_is_Some mem p q dset :
  is_Some (<[p := dset]> mem !! q) ↔ is_Some (mem !! q).
Proof.
  unfold Store, ptr in *. by rewrite !lookup_lt_is_Some, length_insert.
Qed.

Lemma store_insert_eq mem p dset dset' :
  mem !! p = Some dset → <[p := dset']> mem !! p = Some dset'.
Proof.
  unfold Store, ptr in *. intros H%lookup_lt_Some.
  by apply list_lookup_insert_eq.
Qed.

Lemma store_insert_ne mem p q dset :
  p ≠ q → <[p := dset]> mem !! q = mem !! q.
Proof. unfold Store, ptr in *. apply list_lookup_insert_ne. Qed.

(** Updating in place a Dataset of the sequence, with an index that may
    gain entries for it. *)
Lemma agrees_update mem dsets (vm vm' : gmap UUID ptr) p dset dset' :
  index_agrees (mem, dsets) → versionMap dsets = Some vm →
  p ∈ Datasets_list dsets → mem !! p = Some dset →
  (∀ u, is_Some (Nodes (Dataset_dag dset) !! u) →
        is_Some (Nodes (Dataset_dag dset') !! u)) →
  (∀ u, is_Some (Nodes (Dataset_dag dset') !! u) → is_Some (vm' !! u)) →
  (∀ u, is_Some (vm !! u) → is_Some (vm' !! u)) →
  (∀ u q, vm' !! u = Some q →
          vm !! u = Some q ∨
          (q = p ∧ is_Some (Nodes (Dataset_dag dset') !! u))) →
  index_agrees (<[p := dset']> mem,
                mkDatasets (Datasets_list dsets) (NewDatasetID dsets)
                  (Some vm')).
Proof.
  intros (Hvalid & _ & Hsound & Hcomplete) Hvm Hp Hdset Hkept Hnew Hmono Hold.
  cbn [fst snd] in *. unfold versionMap_lookup in *. rewrite Hvm in *.
  cbn in Hsound, Hcomplete.
  split; [|split; [|split]]; cbn [fst snd Datasets_list versionMap].
  - intros q Hq. apply store_insert_is_Some. by apply Hvalid.
  - eauto.
  - cbn. intros u q [Hu|[-> Hu]]%Hold.
    + destruct (Hsound u q Hu) as (Hq & d & Hd & Hin).
      split; [done|]. destruct (decide (p = q)) as [->|Hne].
      * exists dset'. split; [by eapply store_insert_eq|].
        apply Hkept. congruence.
      * exists d. by rewrite store_insert_ne.
    + split; [done|]. exists dset'. split; [by eapply store_insert_eq|done].
  - cbn. intros q d u Hq Hd Hu. destruct (decide (p = q)) as [->|Hne].
    + erewrite store_insert_eq in Hd by done. injection Hd as <-.
      by apply Hnew.
    + rewrite store_insert_ne in Hd by done. apply Hmono.
      by apply (Hcomplete q d u).
Qed.

(** The same, when the index and the UUIDs of the Dataset stay as they
    are. *)
Lemma agrees_update_same mem dsets p dset dset' :
  index_agrees (mem, dsets) →
  p ∈ Datasets_list dsets → mem !! p = Some dset →
  (∀ u, is_Some (Nodes (Dataset_dag dset') !! u) ↔
        is_Some (Nodes (Dataset_dag dset) !! u)) →
  index_agrees (<[p := dset']> mem, dsets).
Proof.
  intros Hagrees Hp Hdset Hkeys.
  destruct Hagrees as (Hvalid & [vm Hvm] & Hsound & Hcomplete).
  assert (Hagrees : index_agrees (mem, dsets)) by done.
  destruct dsets as [ps id ovm]. cbn in Hvm. subst ovm.
  apply (agrees_update mem _ vm vm p dset dset'); try done.
  - intros u. apply Hkeys.
  - intros u Hu%Hkeys. by apply (Hcomplete p dset u).
  - by left.
Qed.

Lemma Lock_keys (dag : VersionDAG) u v :
  is_Some (Nodes (Lock dag u).1 !! v) ↔ is_Some (Nodes dag !! v).
Proof.
  unfold Lock. destruct (Nodes dag !! u) as [node|] eqn:Hu; [|done].
  cbn [fst Nodes]. destruct (decide (u = v)) as [->|Hne].
  - rewrite lookup_insert_eq, Hu. split; eauto.
  - by rewrite lookup_insert_ne.
Qed.

Lemma newChild_keys fresh t (dag : VersionDAG) parent dag' u :
  VersionDAG_newChild LocalID fresh t dag parent = (dag', (u, None)) →
  ∀ v, is_Some (Nodes dag' !! v) ↔ v = u ∨ is_Some (Nodes dag !! v).
Proof.
  intros Hcall v.
  destruct (newChild_success_inv _ _ _ _ _ _ _ Hcall)
    as (node & Hp & _ & -> & Heq).
  rewrite Heq in Hcall. injection Hcall as <-. cbn [Nodes].
  destruct (decide (fresh = v)) as [->|Hne1].
  { rewrite lookup_insert_eq. split; eauto. }
  rewrite lookup_insert_ne by done.
  destruct (decide (parent = v)) as [->|Hne2].
  { rewrite lookup_insert_eq, Hp. split; eauto. }
  rewrite lookup_insert_ne by done. split; [eauto|]. by intros [?|?].
Qed.

Lemma NewData_dag dset name typeName config :
  Dataset_dag (NewData TypeServiceByName dset name typeName config).1
  = Dataset_dag dset.
Proof.
  unfold NewData.
  destruct (nameMap_lookup dset name); [done|].
  destruct (TypeServiceByName typeName) as [ts|]; [|done].
  by destruct (ts _ config).
Qed.

Lemma newDataset_agrees root t mem dsets :
  index_agrees (mem, dsets) →
  ∃ st' p, newDataset LocalID32 KeyDataStart root t (mem, dsets)
           = Some (st', p) ∧ index_agrees st'.
Proof.
  intros (Hvalid & [vm Hvm] & Hsound & Hcomplete).
  cbn [fst snd] in *. unfold versionMap_lookup in *. rewrite Hvm in *.
  cbn in Hsound, Hcomplete. unfold newDataset. rewrite Hvm. cbn.
  eexists _, _. split; [reflexivity|].
  set (dset := mkDataset _ _ _ _). unfold Store, ptr in *.
  assert (Hold : ∀ q, q ∈ Datasets_list dsets →
                      (mem ++ [dset]) !! q = mem !! q).
  { intros q [d Hq]%Hvalid. unfold Store, ptr in *.
    by rewrite (lookup_app_l_Some _ _ _ _ Hq). }
  assert (Hlast : (mem ++ [dset]) !! length mem = Some dset).
  { unfold Store, ptr in *. by rewrite lookup_app_r, Nat.sub_diag. }
  assert (Hfresh : length mem ∉ Datasets_list dsets).
  { intros [d Hd%lookup_lt_Some]%Hvalid. lia. }
  split; [|split; [|split]]; cbn [fst snd Datasets_list versionMap].
  - intros q [Hq| ->%list_elem_of_singleton]%elem_of_app.
    + rewrite Hold by done. by apply Hvalid.
    + eauto.
  - eauto.
  - cbn. intros u q [[<- <-]|[Hne Hu]]%lookup_insert_Some.
    + split; [apply elem_of_app; right; left|].
      exists dset. split; [done|]. cbn. rewrite lookup_insert_eq. eauto.
    + destruct (Hsound u q Hu) as (Hq & d & Hd & Hin).
      split; [apply elem_of_app; by left|].
      exists d. by rewrite Hold.
  - cbn. intros q d u [Hq| ->%list_elem_of_singleton]%elem_of_app Hd Hu.
    + rewrite Hold in Hd by done.
      destruct (Hcomplete q d u Hq Hd Hu) as [q' Hq'].
      destruct (decide (root = u)) as [->|Hne];
        [rewrite lookup_insert_eq|rewrite lookup_insert_ne by done]; eauto.
    + assert (d = dset) as -> by (unfold Store, ptr in *; congruence).
      cbn in Hu.
      apply lookup_insert_is_Some in Hu as [->|[_ Hu]].
      * rewrite lookup_insert_eq. eauto.
      * rewrite lookup_empty in Hu. by destruct Hu.
Qed.

Lemma Datasets_newChild_agrees fresh t mem dsets parent :
  index_agrees (mem, dsets) →
  ∃ st' r, Datasets_newChild LocalID fresh t (mem, dsets) parent
           = Some (st', r) ∧ index_agrees st'.
Proof.
  intros Hagrees. pose proof Hagrees as (Hvalid & [vm Hvm] & Hsound & _).
  cbn [fst snd] in Hvm. unfold Datasets_newChild.
  destruct (versionMap_lookup dsets parent) as [p|] eqn:Hparent; [|eauto].
  destruct (Hsound parent p Hparent) as (Hp & dset & Hdset & _).
  cbn [fst snd] in Hdset, Hp. rewrite Hdset. cbn.
  destruct (VersionDAG_newChild LocalID fresh t (Dataset_dag dset) parent)
    as [dag' [u [e|]]] eqn:Hcall.
  - eexists _, _. split; [reflexivity|].
    destruct (newChild_error_unchanged _ _ _ _ _ _ _ _ Hcall) as [-> _].
    by apply (agrees_update_same mem dsets p dset).
  - eexists _, _. split; [reflexivity|].
    pose proof (newChild_keys _ _ _ _ _ _ Hcall) as Hkeys.
    rewrite Hvm. cbn [default].
    apply (agrees_update mem dsets vm _ p dset); try done; cbn.
    + intros v Hv. apply Hkeys. by right.
    + intros v [->|Hv]%Hkeys; [rewrite lookup_insert_eq; eauto|].
      destruct Hagrees as (_ & _ & _ & Hcomplete).
      destruct (Hcomplete p dset v Hp Hdset Hv) as [q Hq].
      unfold versionMap_lookup in Hq. cbn in Hq. rewrite Hvm in Hq. cbn in Hq.
      destruct (decide (u = v)) as [->|Hne];
        [rewrite lookup_insert_eq|rewrite lookup_insert_ne by done]; eauto.
    + intros v [q Hq].
      destruct (decide (u = v)) as [->|Hne];
        [rewrite lookup_insert_eq|rewrite lookup_insert_ne by done]; eauto.
    + intros v q [[<- <-]|[Hne Hv]]%lookup_insert_Some; [|by left].
      right. split; [done|]. apply Hkeys. by left.
Qed.

Lemma Datasets_newData_agrees mem dsets u name typeName config :
  index_agrees (mem, dsets) →
  ∃ st' r, Datasets_newData TypeServiceByName (mem, dsets) u name typeName
             config = Some (st', r) ∧ index_agrees st'.
Proof.
  intros Hagrees. pose proof Hagrees as (_ & _ & Hsound & _).
  unfold Datasets_newData.
  destruct (versionMap_lookup dsets u) as [p|] eqn:Hu; [|eauto].
  destruct (Hsound u p Hu) as (Hp & dset & Hdset & _).
  cbn [fst snd] in Hdset, Hp. rewrite Hdset. cbn.
  pose proof (NewData_dag dset name typeName config) as Hdag.
  destruct (NewData TypeServiceByName dset name typeName config)
    as [dset' err].
  eexists _, _. split; [reflexivity|].
  apply (agrees_update_same mem dsets p dset); [done..|].
  intros v. cbn in Hdag. by rewrite Hdag.
Qed.

Lemma Datasets_Lock_agrees mem dsets u :
  index_agrees (mem, dsets) →
  ∃ st' r, Datasets_Lock (mem, dsets) u = Some (st', r) ∧ index_agrees st'.
Proof.
  intros Hagrees. pose proof Hagrees as (_ & _ & Hsound & _).
  unfold Datasets_Lock, DatasetFromUUID. cbn [fst snd].
  destruct (versionMap_lookup dsets u) as [p|] eqn:Hu; [|eauto].
  destruct (Hsound u p Hu) as (Hp & dset & Hdset & _).
  cbn [fst snd] in Hdset, Hp. rewrite Hdset. cbn.
  pose proof (Lock_keys (Dataset_dag dset) u) as Hkeys.
  destruct (Lock (Dataset_dag dset) u) as [dag' err].
  eexists _, _. split; [reflexivity|].
  by apply (agrees_update_same mem dsets p dset).
Qed.

Lemma reg_step_agrees (st : Store DataService * Datasets)
    (op : RegOp Config) :
  index_agrees st →
  ∃ st', reg_step LocalID LocalID32 KeyDataStart TypeServiceByName st op
         = Some st' ∧ index_agrees st'.
Proof.
  destruct st as [mem dsets]. intros Hagrees.
  destruct op as [root t|u|parent fresh t|u name typeName config];
    cbn [reg_step].
  - destruct (newDataset_agrees root t mem dsets Hagrees)
      as (st' & p & -> & H). eauto.
  - destruct (Datasets_Lock_agrees mem dsets u Hagrees)
      as (st' & r & -> & H). eauto.
  - destruct (Datasets_newChild_agrees fresh t mem dsets parent Hagrees)
      as (st' & r & -> & H). eauto.
  - destruct (Datasets_newData_agrees mem dsets u name typeName config
                Hagrees) as (st' & r & -> & H). eauto.
Qed.

End registry_props.

(** X18.  [newDataset].  On a registry whose [versionMap] is nil the
    call panics (it writes the map without allocating it).  Otherwise it
    appends one new Dataset object to the sequence: its root is the
    minted UUID, its id is the value [NewDatasetID] had, which then
    advances, its data ids start at [KeyDataStart], its version counter
    is 1 and it has no data; [DatasetFromUUID] finds it under its root
    and answers as before for every other UUID; and its root is not
    locked, so [newChild] on the root fails with NotLocked and changes
    nothing. *)
Theorem newDataset_effects (LocalID LocalID32 : IntType) (KeyDataStart : Z)
    {DataService : Type} (root : UUID) (t : Time)
    (mem : Store DataService) (dsets : Datasets) :
  (versionMap dsets = None →
   newDataset LocalID32 KeyDataStart root t (mem, dsets) = None) ∧
  (is_Some (versionMap dsets) →
   ∃ dset dsets',
     newDataset LocalID32 KeyDataStart root t (mem, dsets)
     = Some ((mem ++ [dset], dsets'), length mem) ∧
     Root (Dataset_dag dset) = root ∧
     DatasetID dset = NewDatasetID dsets ∧
     NewDataID (Dataset_dag dset) = KeyDataStart ∧
     NewVersionID (Dataset_dag dset) = 1 ∧
     nameMap dset = None ∧
     Datasets_list dsets' = Datasets_list dsets ++ [length mem] ∧
     NewDatasetID dsets' = incr LocalID32 (NewDatasetID dsets) ∧
     DatasetFromUUID dsets' root = (Some (length mem), None) ∧
     (∀ u, u ≠ root → DatasetFromUUID dsets' u = DatasetFromUUID dsets u) ∧
     (∀ fresh t',
        Datasets_newChild LocalID fresh t' (mem ++ [dset], dsets') root
        = Some ((mem ++ [dset], dsets'),
                ("", Some (errUnlockedParent root))))).
Proof.
  split; [intros Hnil; unfold newDataset; by rewrite Hnil|].
  intros [vm Hvm]. unfold newDataset. rewrite Hvm. cbn.
  eexists _, _. split; [reflexivity|].
  cbn [Dataset_dag DatasetID nameMap Datasets_list NewDatasetID Root
       NewDataID NewVersionID set_NewDataID NewVersionDAG].
  repeat (split; [reflexivity|]).
  assert (Hroot : ∀ (vm' : option (gmap UUID ptr)) l id,
            vm' = Some (<[root := length mem]> vm) →
            versionMap_lookup (mkDatasets l id vm') root = Some (length mem)).
  { intros vm' l id ->. unfold versionMap_lookup. cbn.
    apply lookup_insert_eq. }
  split; [unfold DatasetFromUUID; by erewrite Hroot|].
  split.
  { intros u Hne. unfold DatasetFromUUID, versionMap_lookup. cbn.
    rewrite lookup_insert_ne, Hvm by done. done. }
  intros fresh t'.
  eapply Datasets_newChild_dag_error; [by apply Hroot| |].
  - unfold Store, ptr in *. by rewrite lookup_app_r, Nat.sub_diag.
  - cbn [Dataset_dag].
    apply (newChild_unlocked _ _ _ _ _
             (Node_of (mkNodeVersion root 0 false [] [] t t))); [|done].
    cbn. apply lookup_insert_eq.
Qed.

Lemma newDataset_effects_witness :
  is_Some (versionMap empty_registry.2) ∧
  ∃ dset dsets',
    newDataset uint32 1 (uuid_of 0) 0 empty_registry
    = Some (([dset], dsets'), 0%nat) ∧
    DatasetID dset = 0 ∧
    DatasetFromUUID dsets' (uuid_of 0) = (Some 0%nat, None).
Proof.
  assert (Halloc : is_Some (versionMap empty_registry.2)) by (by eexists).
  destruct (proj2 (newDataset_effects uint16 uint32 1 (uuid_of 0) 0
                     empty_registry.1 empty_registry.2) Halloc)
    as (dset & dsets' & Hcall & _ & Hid & _ & _ & _ & _ & _ & Hfound & _).
  split; [exact Halloc|].
  exists dset, dsets'. split; [exact Hcall|]. split; [exact Hid|exact Hfound].
Defined.

(** X19.  The UUID index and the Datasets stay in agreement.  From a
    registry whose index agrees with its Datasets (for one, a registry
    with no Dataset and an allocated index), no sequence of
    [newDataset], [Lock], [newChild] and [newData] calls, successful or
    not, panics, and the registry it leaves is again one in which every
    entry of the index names a Dataset of the sequence that holds the
    UUID, and every UUID of every Dataset of the sequence is indexed. *)
Theorem registry_histories_keep_index (LocalID LocalID32 : IntType)
    (KeyDataStart : Z) {Config DataService : Type}
    (TypeServiceByName : string → TypeService Config DataService + error)
    (ops : list (RegOp Config)) :
  ∀ st : Store DataService * Datasets,
  index_agrees st →
  ∃ st',
    reg_run LocalID LocalID32 KeyDataStart TypeServiceByName st ops = Some st' ∧
    index_agrees st'.
Proof.
  induction ops as [|op ops IH]; intros st Hagrees; [by exists st|].
  destruct (reg_step_agrees LocalID LocalID32 KeyDataStart TypeServiceByName
              st op Hagrees) as (st1 & Hstep & Hagrees1).
  destruct (IH st1 Hagrees1) as (st' & Hrun & Hagrees').
  exists st'. split; [|done]. cbn [reg_run]. by rewrite Hstep.
Qed.

Lemma empty_registry_agrees : index_agrees empty_registry.
Proof.
  split; [|split; [|split]]; cbn.
  - by intros p Hp%elem_of_nil.
  - by eexists.
  - intros u p Hu. unfold versionMap_lookup in Hu. cbn in Hu.
    by rewrite lookup_empty in Hu.
  - by intros p dset u Hp%elem_of_nil.
Qed.

Lemma registry_histories_keep_index_witness :
  index_agrees empty_registry ∧
  ∃ st',
    reg_run uint16 uint32 1 recorder_types empty_registry
      [RNewDataset (uuid_of 0) 0; RLock (uuid_of 0);
       RNewChild (uuid_of 0) (uuid_of 1) 1;
       RNewData (uuid_of 1) "grayscale" "recorder" ()]
    = Some st' ∧
    index_agrees st'.
Proof.
  split; [exact empty_registry_agrees|].
  exact (registry_histories_keep_index uint16 uint32 1 recorder_types _ _
           empty_registry_agrees).
Defined.

(** X20.  A child is registered in its parent's Dataset.  After a
    successful [Datasets.newChild], [DatasetFromUUID] returns for the
    new UUID the Dataset it returns for the parent, the Dataset object
    reached is the one whose DAG [VersionDAG.newChild] updated, and
    nothing else moved: the other entries of the index, the other
    Dataset objects, the sequence and the dataset-id counter are as
    before. *)
Theorem Datasets_newChild_same_Dataset (LocalID : IntType)
    {DataService : Type} (fresh : UUID) (t : Time)
    (mem : Store DataService) (dsets : Datasets) (parent : UUID)
    (mem' : Store DataService) (dsets' : Datasets) (u : UUID) :
  Datasets_newChild LocalID fresh t (mem, dsets) parent
  = Some ((mem', dsets'), (u, None)) →
  ∃ p dset dag',
    DatasetFromUUID dsets parent = (Some p, None) ∧
    mem !! p = Some dset ∧
    VersionDAG_newChild LocalID fresh t (Dataset_dag dset) parent
    = (dag', (u, None)) ∧
    mem' !! p = Some (with_dag dset dag') ∧
    DatasetFromUUID dsets' u = (Some p, None) ∧
    DatasetFromUUID dsets' parent = (Some p, None) ∧
    (∀ v, v ≠ u → DatasetFromUUID dsets' v = DatasetFromUUID dsets v) ∧
    (∀ q, q ≠ p → mem' !! q = mem !! q) ∧
    Datasets_list dsets' = Datasets_list dsets ∧
    NewDatasetID dsets' = NewDatasetID dsets.
Proof.
  unfold Datasets_newChild.
  destruct (versionMap_lookup dsets parent) as [p|] eqn:Hparent;
    [|discriminate].
  destruct (mem !! p) as [dset|] eqn:Hdset; [|discriminate]. cbn.
  destruct (VersionDAG_newChild LocalID fresh t (Dataset_dag dset) parent)
    as [dag' [u' [e|]]] eqn:Hcall; [discriminate|].
  intros [= <- <- <-]. exists p, dset, dag'.
  assert (Hvm : ∀ v, versionMap_lookup dsets v
                     = default ∅ (versionMap dsets) !! v)
    by apply versionMap_lookup_entries.
  unfold DatasetFromUUID. rewrite Hparent.
  split; [done|]. split; [done|]. split; [done|].
  split; [by eapply store_insert_eq|].
  unfold versionMap_lookup at 1 2 3. cbn.
  rewrite lookup_insert_eq. split; [done|]. split.
  { destruct (decide (u' = parent)) as [->|Hne];
      [by rewrite lookup_insert_eq|].
    by rewrite lookup_insert_ne, <- Hvm, Hparent. }
  split.
  { intros v Hne. by rewrite lookup_insert_ne, <- Hvm. }
  split; [|done]. intros q Hne. by apply store_insert_ne.
Qed.

Lemma Datasets_newChild_same_Dataset_witness :
  Datasets_newChild uint16 (uuid_of 1) 1
    (lock_in_store fresh_registry 0%nat (uuid_of 0)) (uuid_of 0)
  = Some (branched_registry, (uuid_of 1, None)) ∧
  DatasetFromUUID branched_registry.2 (uuid_of 1) = (Some 0%nat, None).
Proof.
  assert (Hcall :
    Datasets_newChild uint16 (uuid_of 1) 1
      ((lock_in_store fresh_registry 0%nat (uuid_of 0)).1,
       (lock_in_store fresh_registry 0%nat (uuid_of 0)).2) (uuid_of 0)
    = Some ((branched_registry.1, branched_registry.2), (uuid_of 1, None)))
    by (vm_compute; reflexivity).
  split; [vm_compute; reflexivity|].
  destruct (Datasets_newChild_same_Dataset _ _ _ _ _ _ _ _ _ Hcall)
    as (p & dset & dag' & Hparent & _ & _ & _ & Hu & _).
  rewrite Hu. f_equal. f_equal.
  assert (Hp : DatasetFromUUID
                 (lock_in_store fresh_registry 0%nat (uuid_of 0)).2 (uuid_of 0)
               = (Some 0%nat, None)) by (vm_compute; reflexivity).
  rewrite Hp in Hparent. by injection Hparent.
Defined.

(** X21.  Data belongs to the Dataset, not to the version: after a
    successful [Datasets.newChild], [Datasets.DataService] finds under
    the new UUID, for every name, the data service it found under the
    parent before the call, or none if it found none. *)
Theorem child_shares_parent_data (LocalID : IntType) {DataService : Type}
    (fresh : UUID) (t : Time) (mem : Store DataService) (dsets : Datasets)
    (parent : UUID) (mem' : Store DataService) (dsets' : Datasets)
    (u : UUID) (name : DataString) :
  Datasets_newChild LocalID fresh t (mem, dsets) parent
  = Some ((mem', dsets'), (u, None)) →
  fst <$> Datasets_DataService (mem', dsets') u name
  = fst <$> Datasets_DataService (mem, dsets) parent name.
Proof.
  unfold Datasets_newChild.
  destruct (versionMap_lookup dsets parent) as [p|] eqn:Hparent;
    [|discriminate].
  destruct (mem !! p) as [dset|] eqn:Hdset; [|discriminate]. cbn.
  destruct (VersionDAG_newChild LocalID fresh t (Dataset_dag dset) parent)
    as [dag' [u' [e|]]] eqn:Hcall; [discriminate|].
  intros [= <- <- <-]. unfold Datasets_DataService. cbn [fst snd].
  rewrite Hparent, Hdset. unfold versionMap_lookup at 1. cbn.
  rewrite lookup_insert_eq. erewrite store_insert_eq by done. cbn.
  unfold nameMap_lookup.
  by destruct (nameMap dset ≫= λ m, m !! name).
Qed.

Lemma child_shares_parent_data_witness :
  Datasets_newChild uint16 (uuid_of 1) 1
    (lock_in_store fresh_registry 0%nat (uuid_of 0)) (uuid_of 0)
  = Some (branched_registry, (uuid_of 1, None)) ∧
  fst <$> Datasets_DataService branched_registry (uuid_of 1) "grayscale"
  = Some None.
Proof.
  assert (Hcall :
    Datasets_newChild uint16 (uuid_of 1) 1
      ((lock_in_store fresh_registry 0%nat (uuid_of 0)).1,
       (lock_in_store fresh_registry 0%nat (uuid_of 0)).2) (uuid_of 0)
    = Some ((branched_registry.1, branched_registry.2), (uuid_of 1, None)))
    by (vm_compute; reflexivity).
  split; [vm_compute; reflexivity|].
  change branched_registry
    with (branched_registry.1, branched_registry.2) at 1.
  rewrite (child_shares_parent_data _ _ _ _ _ _ _ _ _ "grayscale" Hcall).
  vm_compute. reflexivity.
Defined.



(** X23.  A failed [Datasets.newData] changes nothing: for a UUID the
    index does not know it returns the NotFound error, and whenever it
    returns an error, whatever the reason, the registry and every
    Dataset object are as they were. *)
Theorem Datasets_newData_failure {Config DataService : Type}
    (TypeServiceByName : string → TypeService Config DataService + error)
    (mem : Store DataService) (dsets : Datasets) (u : UUID)
    (name : DataString) (typeName : string) (config : Config) :
  (versionMap_lookup dsets u = None →
   Datasets_newData TypeServiceByName (mem, dsets) u name typeName config
   = Some ((mem, dsets), Some (errNoNodeFound u))) ∧
  (∀ st' e,
     Datasets_newData TypeServiceByName (mem, dsets) u name typeName config
     = Some (st', Some e) →
     st' = (mem, dsets)).
Proof.
  unfold Datasets_newData. split; [by intros ->|].
  intros st' e.
  destruct (versionMap_lookup dsets u) as [p|] eqn:Hu;
    [|by intros [= <- _]].
  destruct (mem !! p) as [dset|] eqn:Hdset; [|discriminate]. cbn.
  destruct (NewData TypeServiceByName dset name typeName config)
    as [dset' err] eqn:Hcall.
  intros [= <- ->].
  apply NewData_error_unchanged in Hcall as ->.
  unfold Store, ptr in *. by rewrite list_insert_id.
Qed.

Lemma Datasets_newData_failure_witness :
  versionMap_lookup fresh_registry.2 (uuid_of 7) = None ∧
  Datasets_newData recorder_types fresh_registry (uuid_of 7) "grayscale"
    "recorder" ()
  = Some (fresh_registry, Some (errNoNodeFound (uuid_of 7))).
Proof.
  assert (Hu : versionMap_lookup fresh_registry.2 (uuid_of 7) = None)
    by (vm_compute; reflexivity).
  split; [exact Hu|].
  exact (proj1 (Datasets_newData_failure recorder_types fresh_registry.1
                  fresh_registry.2 (uuid_of 7) "grayscale" "recorder" ()) Hu).
Defined.

(** X24.  Data instances do not survive a reload: [nameMap] is
    unexported, so after a successful [Deserialize] every Dataset of
    the sequence has a nil name map, and [Datasets.DataService] finds no
    data under any UUID and any name; it returns one of its two
    NotFound errors and never panics. *)
Theorem Deserialize_forgets_data {DataService : Type}
    (dvid_Deserialize : bytes → DatasetsWire → DatasetsWire * option error)
    (mem : Store DataService) (dsets : Datasets) (s : bytes)
    (mem' : Store DataService) (dsets' : Datasets) :
  Deserialize dvid_Deserialize (mem, dsets) s = ((mem', dsets'), None) →
  (∀ p dset, p ∈ Datasets_list dsets' → mem' !! p = Some dset →
             nameMap dset = None) ∧
  (∀ u name,
     Datasets_DataService (mem', dsets') u name
     = Some (None, Some (errNoNodeWithUUID u)) ∨
     Datasets_DataService (mem', dsets') u name
     = Some (None, Some (errNoDataNamed name u))).
Proof.
  unfold Deserialize.
  destruct (dvid_Deserialize s _) as [decoded [e|]]; [discriminate|].
  intros [= <- <-]. cbn [Datasets_list].
  set (ds := Dataset_import (DataService := DataService)
               <$> wire_Datasets decoded).
  assert (Hnil : ∀ p dset, p ∈ seq (length mem) (length ds) →
                           (mem ++ ds) !! p = Some dset →
                           nameMap dset = None).
  { intros p dset Hp%elem_of_seq Hdset. unfold Store, ptr in *.
    rewrite lookup_app_r in Hdset by lia. unfold ds in Hdset.
    rewrite list_lookup_fmap in Hdset.
    destruct (wire_Datasets decoded !! (p - length mem)%nat); [|done].
    by injection Hdset as <-. }
  split; [exact Hnil|].
  intros u name. unfold Datasets_DataService, versionMap_lookup.
  cbn [fst snd versionMap mbind option_bind].
  destruct (rebuild_versionMap (mem ++ ds) (seq (length mem) (length ds))
              !! u) as [q|] eqn:Hu; [|by left].
  right. unfold rebuild_versionMap in Hu.
  apply rebuild_from_sound in Hu as [Hempty|(Hq & dset & Hdset & _)];
    [by rewrite lookup_empty in Hempty|].
  rewrite Hdset. cbn. unfold nameMap_lookup.
  by rewrite (Hnil q dset Hq Hdset).
Qed.

Lemma Deserialize_forgets_data_witness :
  ∃ mem' dsets',
    Deserialize codebook_Deserialize
      (state_after
         (Datasets_newData recorder_types branched_registry (uuid_of 1)
            "grayscale" "recorder" ())) [Byte.x01]
    = ((mem', dsets'), None) ∧
    Datasets_DataService (mem', dsets') (uuid_of 1) "grayscale"
    = Some (None, Some (errNoDataNamed "grayscale" (uuid_of 1))).
Proof.
  eexists _, _. split; [vm_compute; reflexivity|].
  match goal with |- Datasets_DataService (?m, ?d) _ _ = _ =>
    assert (Hcall : Deserialize codebook_Deserialize
              ((state_after
                  (Datasets_newData recorder_types branched_registry
                     (uuid_of 1) "grayscale" "recorder" ())).1,
               (state_after
                  (Datasets_newData recorder_types branched_registry
                     (uuid_of 1) "grayscale" "recorder" ())).2) [Byte.x01]
            = ((m, d), None)) by (vm_compute; reflexivity);
    destruct (proj2 (Deserialize_forgets_data _ _ _ _ _ _ Hcall)
                (uuid_of 1) "grayscale") as [Hno|Hno]
  end.
  - exfalso. vm_compute in Hno. discriminate Hno.
  - exact Hno.
Defined.

(** ** Data types across the registry *)

Section registry_types_props.

Context {DataService : Type}.
Variable DatatypeUrl : DataService → string.
Variable DatatypeName : DataService → string.
Variable CompiledTypes : gset string.
Variable Errorf_format : string → error.
Implicit Types (visits : list (list (DataString * DataService))).
Implicit Types (visit : list (DataString * DataService)).

Lemma foldl_concat {A B : Type} (f : A → B → A) (ls : list (list B)) :
  ∀ a, foldl (λ a l, foldl f a l) a ls = foldl f a (concat ls).
Proof.
  induction ls as [|l ls IH]; intros a; [done|].
  cbn [foldl concat]. by rewrite foldl_app, IH.
Qed.

(** The entries a pass visits are the data instances of the Datasets of
    the sequence. *)
Lemma visits_registry_entries (mem : Store DataService) (ps : list ptr)
    (id : Z) (vm : option (gmap UUID ptr)) visits :
  visits_registry (mem, mkDatasets ps id vm) visits →
  ∀ name data,
    (name, data) ∈ concat visits ↔
    ∃ p dset, p ∈ ps ∧ mem !! p = Some dset ∧
              nameMap_lookup dset name = Some data.
Proof.
  unfold visits_registry. cbn [fst snd Datasets_list].
  induction 1 as [|p visit ps visits (dset & Hp & Hperm) _ IH];
    intros name data; cbn [concat].
  - split; [by intros H%elem_of_nil|].
    by intros (p & dset & H%elem_of_nil & _).
  - rewrite elem_of_app, IH, Hperm, elem_of_map_to_list.
    assert (Hlook : default ∅ (AvailableData dset) !! name = Some data ↔
                    nameMap_lookup dset name = Some data).
    { unfold nameMap_lookup, AvailableData. by destruct (nameMap dset). }
    rewrite Hlook. split.
    + intros [H|(q & d & Hq & Hd & H)].
      * exists p, dset. split; [left|done].
      * exists q, d. split; [by right|done].
    + intros (q & d & [->|Hq]%elem_of_cons & Hd & H).
      * left. congruence.
      * right. eauto.
Qed.

(** The map built by the assignments of [Datatypes]. *)
Lemma typemap_lookup visit : ∀ (typemap : gmap string DataService) url,
  (∀ data,
     foldl (λ typemap (entry : DataString * DataService),
              <[DatatypeUrl entry.2 := entry.2]> typemap) typemap visit
       !! url = Some data →
     typemap !! url = Some data ∨
     (DatatypeUrl data = url ∧ ∃ name, (name, data) ∈ visit)) ∧
  (is_Some (typemap !! url) ∨
   (∃ name data, (name, data) ∈ visit ∧ DatatypeUrl data = url) →
   is_Some
     (foldl (λ typemap (entry : DataString * DataService),
               <[DatatypeUrl entry.2 := entry.2]> typemap) typemap visit
        !! url)).
Proof.
  induction visit as [|[name0 data0] visit IH]; intros typemap url;
    cbn [foldl snd].
  - split; [by left|].
    intros [?|(name & data & H%elem_of_nil & _)]; done.
  - destruct (IH (<[DatatypeUrl data0 := data0]> typemap) url)
      as [IHsound IHcomplete].
    split.
    + intros data [Hin|(Hurl & name & Hin)]%IHsound.
      * apply lookup_insert_Some in Hin as [[<- <-]|[_ Hin]]; [|by left].
        right. split; [done|]. exists name0. left.
      * right. split; [done|]. exists name. by right.
    + intros Hcase. apply IHcomplete.
      destruct Hcase as [Hin|(name & data & Hin & Hurl)].
      * left. destruct (decide (DatatypeUrl data0 = url)) as [->|Hne];
          [rewrite lookup_insert_eq; eauto|by rewrite lookup_insert_ne].
      * apply elem_of_cons in Hin as [[= -> ->]|Hin].
        -- left. rewrite Hurl, lookup_insert_eq. eauto.
        -- right. eauto.
Qed.

Lemma append_empty (s1 s2 : string) : s1 +:+ s2 = "" → s1 = "" ∧ s2 = "".
Proof. destruct s1; [done|discriminate]. Qed.

Lemma msgNotCompiled_nonempty name data :
  msgNotCompiled DatatypeUrl DatatypeName name data ≠ "".
Proof. unfold msgNotCompiled. discriminate. Qed.

(** The message stays empty exactly when every visited type is
    compiled. *)
Lemma verify_loop visit : ∀ errMsg,
  foldl (verify_step DatatypeUrl DatatypeName CompiledTypes) errMsg visit = ""
  ↔ errMsg = "" ∧
    ∀ name data, (name, data) ∈ visit → DatatypeUrl data ∈ CompiledTypes.
Proof.
  induction visit as [|[name0 data0] visit IH]; intros errMsg; cbn [foldl].
  - split; [|by intros [? _]]. intros ->. split; [done|].
    by intros name data H%elem_of_nil.
  - rewrite IH. unfold verify_step at 1. cbn [fst snd].
    destruct (decide (DatatypeUrl data0 ∈ CompiledTypes)) as [Hin|Hnotin].
    + split; intros [Hmsg Hall]; (split; [done|]).
      * intros name data [[= -> ->]|H]%elem_of_cons; eauto.
      * intros name data H. apply (Hall name data). by right.
    + split.
      * intros [[_ Hmsg]%append_empty _].
        by apply msgNotCompiled_nonempty in Hmsg.
      * intros [_ Hall]. destruct Hnotin. apply (Hall name0 data0). left.
Qed.

End registry_types_props.

(** X25.  [VerifyCompiledTypes] returns no error exactly when the type
    URL of every data instance of every Dataset of the sequence is a
    key of [CompiledTypes], whatever the order in which the name maps
    are visited; one missing type anywhere makes it return an error. *)
Theorem VerifyCompiledTypes_nil_iff {DataService : Type}
    (DatatypeUrl DatatypeName : DataService → string)
    (CompiledTypes : gset string) (Errorf_format : string → error)
    (mem : Store DataService) (dsets : Datasets)
    (visits : list (list (DataString * DataService))) :
  visits_registry (mem, dsets) visits →
  (VerifyCompiledTypes_visiting DatatypeUrl DatatypeName CompiledTypes
     Errorf_format visits = None
   ↔ ∀ p dset name data,
       p ∈ Datasets_list dsets → mem !! p = Some dset →
       nameMap_lookup dset name = Some data →
       DatatypeUrl data ∈ CompiledTypes).
Proof.
  intros Hvisits. destruct dsets as [ps id vm].
  pose proof (visits_registry_entries mem ps id vm visits Hvisits) as Hentries.
  unfold VerifyCompiledTypes_visiting. cbn zeta. rewrite foldl_concat.
  cbn [Datasets_list].
  destruct (String.eqb _ "") eqn:Hmsg.
  - apply String.eqb_eq, verify_loop in Hmsg as [_ Hall].
    split; [|done]. intros _ p dset name data Hp Hdset Hname.
    apply (Hall name data), Hentries. eauto.
  - apply String.eqb_neq in Hmsg. split; [discriminate|].
    intros Hall. destruct Hmsg. apply verify_loop. split; [done|].
    intros name data (p & dset & Hp & Hdset & Hname)%Hentries. eauto.
Qed.

(** X26.  [Datatypes] returns a map whose keys are exactly the type
    URLs of the data instances of the Datasets of the sequence, and
    which holds under each URL a data instance of some Dataset that has
    that URL, whatever the order in which the name maps are visited. *)
Theorem Datatypes_keys {DataService : Type}
    (DatatypeUrl : DataService → string)
    (mem : Store DataService) (dsets : Datasets)
    (visits : list (list (DataString * DataService))) (url : string) :
  visits_registry (mem, dsets) visits →
  (is_Some (Datatypes_visiting DatatypeUrl visits !! url) ↔
   ∃ p dset name data,
     p ∈ Datasets_list dsets ∧ mem !! p = Some dset ∧
     nameMap_lookup dset name = Some data ∧ DatatypeUrl data = url) ∧
  (∀ data,
     Datatypes_visiting DatatypeUrl visits !! url = Some data →
     DatatypeUrl data = url ∧
     ∃ p dset name,
       p ∈ Datasets_list dsets ∧ mem !! p = Some dset ∧
       nameMap_lookup dset name = Some data).
Proof.
  intros Hvisits. destruct dsets as [ps id vm].
  pose proof (visits_registry_entries mem ps id vm visits Hvisits) as Hentries.
  unfold Datatypes_visiting. rewrite foldl_concat. cbn [Datasets_list].
  destruct (typemap_lookup DatatypeUrl (concat visits) ∅ url)
    as [Hsound Hcomplete].
  assert (Hfound : ∀ data,
            foldl (λ (typemap : gmap string DataService)
                     (entry : DataString * DataService),
                     <[DatatypeUrl entry.2 := entry.2]> typemap) ∅
              (concat visits) !! url = Some data →
            DatatypeUrl data = url ∧
            ∃ p dset name, p ∈ ps ∧ mem !! p = Some dset ∧
                           nameMap_lookup dset name = Some data).
  { intros data [Hempty|(Hurl & name & Hin)]%Hsound;
      [by rewrite lookup_empty in Hempty|].
    split; [done|]. apply Hentries in Hin as (p & dset & H). eauto. }
  split; [|exact Hfound]. split.
  - intros [data Hdata]. destruct (Hfound data Hdata)
      as (Hurl & p & dset & name & Hp & Hdset & Hname).
    exists p, dset, name, data. done.
  - intros (p & dset & name & data & Hp & Hdset & Hname & Hurl).
    apply Hcomplete. right. exists name, data. split; [|done].
    apply Hentries. eauto.
Qed.

Lemma grayscale_registry_visits :
  visits_registry (grayscale_registry.1, grayscale_registry.2)
    [[("grayscale", mkDataID "grayscale" 1 0)]].
Proof.
  constructor; [|constructor].
  eexists. split; [vm_compute; reflexivity|].
  vm_compute. reflexivity.
Qed.

Lemma VerifyCompiledTypes_nil_iff_witness :
  visits_registry (grayscale_registry.1, grayscale_registry.2)
    [[("grayscale", mkDataID "grayscale" 1 0)]] ∧
  VerifyCompiledTypes_visiting recorder_url recorder_name
    {["dvid/recorder/grayscale"]} id
    [[("grayscale", mkDataID "grayscale" 1 0)]] = None ∧
  recorder_url (mkDataID "grayscale" 1 0)
  ∈ ({["dvid/recorder/grayscale"]} : gset string).
Proof.
  assert (Hnil :
    VerifyCompiledTypes_visiting recorder_url recorder_name
      {["dvid/recorder/grayscale"]} id
      [[("grayscale", mkDataID "grayscale" 1 0)]] = None)
    by (vm_compute; reflexivity).
  split; [exact grayscale_registry_visits|]. split; [exact Hnil|].
  refine (proj1 (VerifyCompiledTypes_nil_iff recorder_url recorder_name
                   {["dvid/recorder/grayscale"]} id grayscale_registry.1
                   grayscale_registry.2 _ grayscale_registry_visits)
            Hnil 0%nat _ "grayscale" _ _ _ _).
  - vm_compute. left.
  - vm_compute. reflexivity.
  - vm_compute. reflexivity.
Defined.

Lemma Datatypes_keys_witness :
  visits_registry (grayscale_registry.1, grayscale_registry.2)
    [[("grayscale", mkDataID "grayscale" 1 0)]] ∧
  Datatypes_visiting recorder_url
    [[("grayscale", mkDataID "grayscale" 1 0)]] !! "dvid/recorder/grayscale"
  = Some (mkDataID "grayscale" 1 0) ∧
  recorder_url (mkDataID "grayscale" 1 0) = "dvid/recorder/grayscale".
Proof.
  assert (Hfound :
    Datatypes_visiting recorder_url
      [[("grayscale", mkDataID "grayscale" 1 0)]] !! "dvid/recorder/grayscale"
    = Some (mkDataID "grayscale" 1 0)) by (vm_compute; reflexivity).
  split; [exact grayscale_registry_visits|]. split; [exact Hfound|].
  exact (proj1 (proj2 (Datatypes_keys recorder_url grayscale_registry.1
                         grayscale_registry.2 _ "dvid/recorder/grayscale"
                         grayscale_registry_visits) _ Hfound)).
Defined.

(** ** Per-version mutexes *)

Lemma VersionMutex_distinct (cache : MutexCache) (dataset data versionID : Z) :
  mutexes_distinct cache →
  mutexes_distinct (VersionMutex cache dataset data versionID).1 ∧
  versionMutexes (VersionMutex cache dataset data versionID).1
    !! (dataset, data, versionID)
  = Some (VersionMutex cache dataset data versionID).2 ∧
  (∀ id m, versionMutexes cache !! id = Some m →
           versionMutexes (VersionMutex cache dataset data versionID).1 !! id
           = Some m).
Proof.
  intros Hwf. unfold VersionMutex. cbn zeta.
  destruct (versionMutexes cache !! _) as [m|] eqn:Hid; cbn [fst snd];
    [split; [exact Hwf|split; [exact Hid|auto]]|].
  split; [|split].
  - intros id m. cbn [versionMutexes mutexes_allocated].
    intros [[<- <-]|[Hne Hm]]%lookup_insert_Some.
    + split; [lia|]. intros id' [[? _]|[_ Hm']]%lookup_insert_Some; [done|].
      apply Hwf in Hm' as [Hlt _]. lia.
    + destruct (Hwf id m Hm) as [Hlt Hinj]. split; [lia|].
      intros id' [[_ Heq]|[_ Hm']]%lookup_insert_Some; [lia|by apply Hinj].
  - cbn. apply lookup_insert_eq.
  - intros id m Hm. cbn.
    rewrite lookup_insert_ne by congruence. done.
Qed.

(** X27.  One mutex for each (dataset, data, version) triple: in a
    cache where the mutexes of different triples differ, as in the
    empty cache of [init], two calls of [VersionMutex], run one after
    the other, return the same mutex exactly when they are made for the
    same triple, both mutexes are cached under their triples afterwards,
    and the mutexes of different triples still differ. *)
Theorem VersionMutex_one_per_triple (cache : MutexCache)
    (dataset1 data1 version1 dataset2 data2 version2 : Z) :
  mutexes_distinct cache →
  let r1 := VersionMutex cache dataset1 data1 version1 in
  let r2 := VersionMutex r1.1 dataset2 data2 version2 in
  (r1.2 = r2.2 ↔ (dataset1, data1, version1) = (dataset2, data2, version2)) ∧
  versionMutexes r2.1 !! (dataset1, data1, version1) = Some r1.2 ∧
  versionMutexes r2.1 !! (dataset2, data2, version2) = Some r2.2 ∧
  mutexes_distinct r2.1.
Proof.
  intros Hwf. cbn zeta.
  destruct (VersionMutex_distinct cache dataset1 data1 version1 Hwf)
    as (Hwf1 & Hm1 & _).
  destruct (VersionMutex_distinct _ dataset2 data2 version2 Hwf1)
    as (Hwf2 & Hm2 & Hkeep).
  pose proof (Hkeep _ _ Hm1) as Hm1'.
  split; [|done]. split.
  - intros Heq. rewrite Heq in Hm1'.
    destruct (Hwf2 _ _ Hm2) as [_ Hinj]. by apply Hinj.
  - intros [= <- <- <-]. unfold nodeID in *.
    rewrite Hm1' in Hm2. by injection Hm2.
Qed.

Lemma init_versionMutexes_distinct : mutexes_distinct init_versionMutexes.
Proof. intros id m Hm. cbn in Hm. by rewrite lookup_empty in Hm. Qed.

Lemma VersionMutex_one_per_triple_witness :
  mutexes_distinct init_versionMutexes ∧
  (VersionMutex init_versionMutexes 0 1 2).2
  ≠ (VersionMutex (VersionMutex init_versionMutexes 0 1 2).1 0 1 3).2 ∧
  (VersionMutex init_versionMutexes 0 1 2).2
  = (VersionMutex (VersionMutex init_versionMutexes 0 1 2).1 0 1 2).2.
Proof.
  split; [exact init_versionMutexes_distinct|]. split.
  - intros Heq.
    apply (proj1 (VersionMutex_one_per_triple init_versionMutexes 0 1 2 0 1 3
                    init_versionMutexes_distinct)) in Heq.
    discriminate Heq.
  - exact (proj2 (proj1 (VersionMutex_one_per_triple init_versionMutexes
                           0 1 2 0 1 2 init_versionMutexes_distinct))
             eq_refl).
Defined.

(** ** Operating on a reloaded registry *)

(** X28.  A reloaded registry is a sound starting point: after a
    successful [Deserialize], whatever the codec decoded and whatever
    the registry held before, the pointers of the new sequence are
    valid, the index is allocated, every entry of the index names a
    Dataset of the sequence that holds the UUID and every UUID of every
    Dataset of the sequence is indexed, so that the operations of the
    registry can go on from it without a nil dereference. *)
Theorem Deserialize_establishes_agreement {DataService : Type}
    (dvid_Deserialize : bytes → DatasetsWire → DatasetsWire * option error)
    (st : Store DataService * Datasets) (s : bytes)
    (st' : Store DataService * Datasets) :
  Deserialize dvid_Deserialize st s = (st', None) →
  index_agrees st'.
Proof.
  destruct st as [mem dsets]. unfold Deserialize.
  destruct (dvid_Deserialize s _) as [decoded [e|]]; [discriminate|].
  intros [= <-].
  set (ds := Dataset_import (DataService := DataService)
               <$> wire_Datasets decoded).
  set (ps := seq (length mem) (length ds)).
  split; [|split; [|split]]; cbn [fst snd Datasets_list versionMap].
  - intros p Hp%elem_of_seq. unfold Store, ptr in *.
    apply lookup_lt_is_Some. rewrite length_app. lia.
  - eauto.
  - intros u p. unfold versionMap_lookup. cbn.
    intros [Hempty|(Hp & dset & Hdset & Hu)]%rebuild_from_sound;
      [by rewrite lookup_empty in Hempty|].
    split; [done|]. exists dset. split; [done|]. by apply elem_of_Versions.
  - intros p dset u Hp Hdset Hu. unfold versionMap_lookup. cbn.
    apply rebuild_from_complete. right. exists p, dset.
    split; [done|]. split; [done|]. by apply elem_of_Versions.
Qed.

Lemma Deserialize_establishes_agreement_witness :
  ∃ st',
    Deserialize codebook_Deserialize empty_registry [Byte.x01] = (st', None) ∧
    index_agrees st'.
Proof.
  eexists. split; [vm_compute; reflexivity|].
  match goal with |- index_agrees ?st' =>
    apply (Deserialize_establishes_agreement codebook_Deserialize
             empty_registry [Byte.x01] st')
  end.
  vm_compute. reflexivity.
Defined.
